(** * face/skin.go: skin mask and posterization score

    A shallow embedding of [SkinMask], [Content] and their helpers
    ([skinMaskColor], [skinMaskColorRGBA], [contentRGBA]) together with the
    parts of Go's [image], [image/color] and [image/draw] packages they call.

    Conventions.
    - Go's [int] (coordinates, offsets, counters) is [Z]; image dimensions are
      bounded by the size of an addressable buffer, far below [2^63].
    - [uint8] data (pixel buffers) is [Byte.byte]; arithmetic on [uint8] and
      [uint32] values is done on [Z] with the wrap-around written out.
    - A run-time panic is an [outcome]; the [for sp != ep] loops take fuel and
      are shown never to exhaust it.
    - [float32(r)/float32(g)] and [float64(m)/float64(area)] are [fquot]:
      an IEEE quotient is NaN, an infinity, or the rounding of an exact
      rational, which is what [FFin] carries. *)

From Stdlib Require Import ZArith List Bool Lia QArith.
From Stdlib Require Import Strings.Byte.
Import ListNotations.
Local Open Scope Z_scope.

(** ** Machine integers *)

Definition u8 (b : byte) : Z := Z.of_N (Byte.to_N b).

Definition b8 (z : Z) : byte :=
  match Byte.of_N (Z.to_N (z mod 256)) with
  | Some b => b
  | None => x00
  end.

Definition wrap8 (z : Z) : Z := z mod 256.
Definition wrap32 (z : Z) : Z := z mod 4294967296.

Definition sub8 (x y : Z) : Z := wrap8 (x - y).
Definition add8 (x y : Z) : Z := wrap8 (x + y).
Definition sub32 (x y : Z) : Z := wrap32 (x - y).
Definition add32 (x y : Z) : Z := wrap32 (x + y).

(** ** Panics and the outcome monad *)

Inductive panic : Type :=
| SubimageMask      (* panic("skinMaskColorRGBA: doesn't support subimage masks") *)
| IndexOutOfRange   (* run-time slice index check *)
| NegativeDimensions.
    (* panic("image: NewAlpha Rectangle has huge or negative dimensions") *)

Inductive outcome (A : Type) : Type :=
| Done (a : A)
| Panicked (p : panic)
| OutOfFuel.

Arguments Done {A} a.
Arguments Panicked {A} p.
Arguments OutOfFuel {A}.

Definition bind {A B : Type} (m : outcome A) (k : A -> outcome B) : outcome B :=
  match m with
  | Done a => k a
  | Panicked p => Panicked p
  | OutOfFuel => OutOfFuel
  end.

Notation "x <- m ;; k" := (bind m (fun x => k))
  (at level 61, m at next level, right associativity).

(** [for _, v := range l { s = body v s }] with a body that may panic. *)
Fixpoint foldM {A S : Type} (body : A -> S -> outcome S) (l : list A) (s : S)
  : outcome S :=
  match l with
  | [] => Done s
  | a :: l' => s' <- body a s ;; foldM body l' s'
  end.

(** [for v := lo; v <= hi; v++]: the values the loop variable takes. *)
Definition rangeIncl (lo hi : Z) : list Z :=
  map (fun i => lo + Z.of_nat i) (seq 0 (Z.to_nat (hi - lo + 1))).

(** [for ; sp != ep; sp += 4 { s = body sp s }]. *)
Fixpoint forNe4 {S : Type} (fuel : nat) (body : Z -> S -> outcome S)
  (ep sp : Z) (s : S) : outcome S :=
  match fuel with
  | O => OutOfFuel
  | Datatypes.S fuel' =>
      if sp =? ep then Done s
      else s' <- body sp s ;; forNe4 fuel' body ep (sp + 4) s'
  end.

(** [l[i]] and [l[i] = v] with Go's index check. *)
Definition index {A : Type} (l : list A) (i : Z) : outcome A :=
  if i <? 0 then Panicked IndexOutOfRange
  else match nth_error l (Z.to_nat i) with
       | Some a => Done a
       | None => Panicked IndexOutOfRange
       end.

Fixpoint update {A : Type} (l : list A) (n : nat) (v : A) : list A :=
  match l, n with
  | [], _ => []
  | _ :: t, O => v :: t
  | h :: t, Datatypes.S n' => h :: update t n' v
  end.

Definition store {A : Type} (l : list A) (i : Z) (v : A) : outcome (list A) :=
  if i <? 0 then Panicked IndexOutOfRange
  else if i <? Z.of_nat (length l) then Done (update l (Z.to_nat i) v)
  else Panicked IndexOutOfRange.

(** ** Floating-point quotients *)

Inductive fquot : Type :=
| FNaN
| FPosInf
| FNegInf
| FFin (q : Q).

(** [float(x) / float(y)] for integers [x], [y] that convert exactly (below
    2^24 for [float32], 2^53 for [float64]). The IEEE quotient is NaN, an
    infinity, or the correctly rounded value of the exact rational [x/y],
    which [FFin] carries unrounded. Division by zero does not trap. *)
Definition fdiv (x y : Z) : fquot :=
  if y =? 0 then
    (if x =? 0 then FNaN else if 0 <? x then FPosInf else FNegInf)
  else FFin (inject_Z x / inject_Z y).

(** [q >= c] for a constant [c] that is itself a float (2.5 here); every
    comparison with NaN is false. Rounding is monotone and leaves [c] fixed,
    so the rounded quotient is at least [c] when the exact one is; an exact
    quotient of 16-bit channels below 2.5 is below it by more than the
    spacing of [float32] there (lemma [ratio_gap]), so its rounding is below
    2.5 as well. *)
Definition fge (q : fquot) (c : Q) : bool :=
  match q with
  | FNaN => false
  | FPosInf => true
  | FNegInf => false
  | FFin v => Qle_bool c v
  end.

(** ** image.Rectangle *)

Record Rectangle : Type := mkRect { MinX : Z; MinY : Z; MaxX : Z; MaxY : Z }.

Definition Dx (r : Rectangle) : Z := MaxX r - MinX r.
Definition Dy (r : Rectangle) : Z := MaxY r - MinY r.

(** [r == s] on the struct: the four coordinates. *)
Definition rect_eqb (r s : Rectangle) : bool :=
  (MinX r =? MinX s) && (MinY r =? MinY s) &&
  (MaxX r =? MaxX s) && (MaxY r =? MaxY s).

(** [image.Point{x, y}.In(r)]. *)
Definition PtIn (x y : Z) (r : Rectangle) : bool :=
  (MinX r <=? x) && (x <? MaxX r) && (MinY r <=? y) && (y <? MaxY r).

(** ** Colors: the four [uint32] values of [color.Color.RGBA()] *)

Record rgba32 : Type := mkColor { cR : Z; cG : Z; cB : Z; cA : Z }.

(** [color.RGBA.RGBA()]: [r = uint32(c.R); r |= r << 8]. *)
Definition widen (c : byte) : Z := Z.lor (u8 c) (Z.shiftl (u8 c) 8).

(** ** image.RGBA and image.Alpha *)

Record RGBA : Type := mkRGBA { Pix : list byte; Stride : Z; Rect : Rectangle }.

Record Alpha : Type :=
  mkAlpha { APix : list byte; AStride : Z; ARect : Rectangle }.

(** [PixOffset] of [image.RGBA]. *)
Definition PixOffset (p : RGBA) (x y : Z) : Z :=
  (y - MinY (Rect p)) * Stride p + (x - MinX (Rect p)) * 4.

(** [At(x, y).RGBA()] of [image.RGBA]: the zero color outside [Rect]; inside,
    the slice [Pix[i:i+4:i+4]] is checked first, then its four bytes read. *)
Definition RGBA_At (p : RGBA) (x y : Z) : outcome rgba32 :=
  if negb (PtIn x y (Rect p)) then Done (mkColor 0 0 0 0)
  else
    let i := PixOffset p x y in
    a <- index (Pix p) (i + 3) ;;
    r <- index (Pix p) i ;;
    g <- index (Pix p) (i + 1) ;;
    b <- index (Pix p) (i + 2) ;;
    Done (mkColor (widen r) (widen g) (widen b) (widen a)).

(** [PixOffset] of [image.Alpha]. *)
Definition APixOffset (p : Alpha) (x y : Z) : Z :=
  (y - MinY (ARect p)) * AStride p + (x - MinX (ARect p)) * 1.

(** [Set(x, y, color.Opaque)] of [image.Alpha]: ignored outside [Rect];
    [color.AlphaModel] converts [color.Opaque] to alpha 255. *)
Definition Alpha_SetOpaque (p : Alpha) (x y : Z) : outcome Alpha :=
  if negb (PtIn x y (ARect p)) then Done p
  else
    pix <- store (APix p) (APixOffset p x y) xff ;;
    Done (mkAlpha pix (AStride p) (ARect p)).

(** The value [image.NewAlpha(r)] returns when it returns: a zeroed buffer of
    [1 * Dx * Dy] bytes with stride [1 * Dx]. *)
Definition blankAlpha (r : Rectangle) : Alpha :=
  mkAlpha (repeat x00 (Z.to_nat (1 * Dx r * Dy r))) (1 * Dx r) r.

(** [image.NewAlpha(r)]: the buffer length is [pixelBufferLength(1, r, ..)],
    which panics when [r.Dx()] or [r.Dy()] is negative. Its other panic, on
    a product that overflows [int], does not arise with [int] as [Z]. *)
Definition NewAlpha (r : Rectangle) : outcome Alpha :=
  if (Dx r <? 0) || (Dy r <? 0) then Panicked NegativeDimensions
  else Done (blankAlpha r).

(** ** image.Image and draw.Image *)

(** A source is an [*image.RGBA] or some other implementation, given by its
    bounds and by what [At(x, y).RGBA()] returns. *)
Inductive Image : Type :=
| ImgRGBA (p : RGBA)
| ImgOther (bounds : Rectangle) (at_ : Z -> Z -> rgba32).

(** A mask is an [*image.Alpha] or some other [draw.Image], represented by its
    bounds and the coordinates it was asked to set opaque (latest first). *)
Inductive Mask : Type :=
| MaskAlpha (a : Alpha)
| MaskOther (bounds : Rectangle) (opaque : list (Z * Z)).

Definition Bounds (src : Image) : Rectangle :=
  match src with
  | ImgRGBA p => Rect p
  | ImgOther b _ => b
  end.

Definition At (src : Image) (x y : Z) : outcome rgba32 :=
  match src with
  | ImgRGBA p => RGBA_At p x y
  | ImgOther _ f =>
      let c := f x y in
      Done (mkColor (wrap32 (cR c)) (wrap32 (cG c)) (wrap32 (cB c))
                    (wrap32 (cA c)))
  end.

Definition Mask_Bounds (m : Mask) : Rectangle :=
  match m with
  | MaskAlpha a => ARect a
  | MaskOther b _ => b
  end.

Definition Mask_SetOpaque (m : Mask) (x y : Z) : outcome Mask :=
  match m with
  | MaskAlpha a => a' <- Alpha_SetOpaque a x y ;; Done (MaskAlpha a')
  | MaskOther b l => Done (MaskOther b ((x, y) :: l))
  end.

(** ** Thresholds *)

Record thresholds : Type :=
  mkThresholds { minR : Z; minRGdelta : Z; maxRGdelta : Z }.

Definition maxRGrat : Q := 5 # 2.

(** The constants of [skinMaskColorRGBA]. *)
Definition thresholdsRGBA : thresholds := mkThresholds 75 20 90.

(** Modelled from the spec: an 8-bit threshold scaled to the 16-bit range,
    [v << 8 | v], that is [257 * v]. *)
Definition scale16 (v : Z) : Z := Z.lor (Z.shiftl v 8) v.

(** Modelled from the spec: the constants of the generic loop of
    [skinMaskColor]. The source writes them [75 << 8 || 75], [20 << 8 || 20]
    and [90 << 8 || 90], which is not an integer expression; the spec asks for
    the 8-bit thresholds scaled to 16 bits. The generic loop below takes its
    thresholds as a parameter. *)
Definition thresholds16 : thresholds :=
  mkThresholds (scale16 75) (scale16 20) (scale16 90).

(** ** The skin test of each loop body *)

(** The three [continue] tests of the generic loop, on [uint32] channels. *)
Definition skin32 (th : thresholds) (r g : Z) : bool :=
  if r <? minR th then false
  else if (sub32 r g <? minRGdelta th) || (maxRGdelta th <? sub32 r g)
  then false
  else if fge (fdiv r g) maxRGrat then false
  else true.

(** The three [continue] tests of [skinMaskColorRGBA], on [uint8] channels. *)
Definition skin8 (r g : byte) : bool :=
  if u8 r <? minR thresholdsRGBA then false
  else if (sub8 (u8 r) (u8 g) <? minRGdelta thresholdsRGBA)
          || (maxRGdelta thresholdsRGBA <? sub8 (u8 r) (u8 g))
  then false
  else if fge (fdiv (u8 r) (u8 g)) maxRGrat then false
  else true.

(** ** skinMaskColorRGBA *)

(** Loop state: [mp], [n] and [mask.Pix]. *)
Definition maskBody (pix : list byte) (sp : Z) (s : Z * Z * list byte)
  : outcome (Z * Z * list byte) :=
  let '(mp, n, mpix) := s in
  let mp := mp + 1 in
  g <- index pix (sp + 1) ;;
  r <- index pix sp ;;
  if skin8 r g then
    mpix' <- store mpix mp xff ;;
    Done (mp, n + 1, mpix')
  else Done (mp, n, mpix).

(** The returned mask is [mask] with its [Pix] as the loop leaves it. An
    iteration that does not panic has read [pix[sp+1]], so the loop is over
    within [len(pix) + 1] iterations (lemma [forNe4_ok]). *)
Definition skinMaskColorRGBA (src : RGBA) (mask : Alpha)
  : outcome (Alpha * fquot) :=
  let r := ARect mask in
  if negb (rect_eqb (Rect src) r) then Panicked SubimageMask
  else
    let sp := (MinY r - MinY (Rect src)) * Stride src
              + (MinX r - MinX (Rect src)) * 4 in
    let ep := Dx r * Dy r * 4 in
    s <- forNe4 (S (length (Pix src))) (maskBody (Pix src)) ep sp
           (-1, 0, APix mask) ;;
    let '(_, n, mpix) := s in
    Done (mkAlpha mpix (AStride mask) (ARect mask), fdiv n (Dy r * Dx r)).

(** ** skinMaskColor *)

Definition genericBody (th : thresholds) (src : Image) (x y : Z)
  (s : Mask * Z) : outcome (Mask * Z) :=
  let '(mask, m) := s in
  c <- At src x y ;;
  if skin32 th (cR c) (cG c) then
    mask' <- Mask_SetOpaque mask x y ;;
    Done (mask', m + 1)
  else Done (mask, m).

(** The generic loop of [skinMaskColor] (after the fast-path test). *)
Definition skinMaskColorGeneric (th : thresholds) (src : Image) (mask : Mask)
  : outcome (Mask * fquot) :=
  let r := Mask_Bounds mask in
  s <- foldM (fun y s =>
                foldM (fun x s => genericBody th src x y s)
                      (rangeIncl (MinX r) (MaxX r)) s)
             (rangeIncl (MinY r) (MaxY r)) (mask, 0) ;;
  let '(mask', m) := s in
  Done (mask', fdiv m (Dy r * Dx r)).

Definition skinMaskColor (th : thresholds) (src : Image) (mask : option Mask)
  : outcome (Mask * fquot) :=
  mask <- match mask with
          | None => a <- NewAlpha (Bounds src) ;; Done (MaskAlpha a)
          | Some m => Done m
          end ;;
  if rect_eqb (Bounds src) (Mask_Bounds mask) then
    match src, mask with
    | ImgRGBA p, MaskAlpha a =>
        res <- skinMaskColorRGBA p a ;;
        Done (MaskAlpha (fst res), snd res)
    | _, _ => skinMaskColorGeneric th src mask
    end
  else skinMaskColorGeneric th src mask.

Definition SkinMask (th : thresholds) (src : Image) (mask : option Mask)
  : outcome (Mask * fquot) :=
  skinMaskColor th src mask.

(** ** Content and contentRGBA *)

Definition threshold : Z := 64.

(** [C[i]++] on an array of [byte] counters. *)
Definition bump (C : list Z) (i : Z) : list Z :=
  update C (Z.to_nat i) (add8 (nth (Z.to_nat i) C 0) 1).

(** [for _, v := range C { if v > threshold { n++ } }]. *)
Definition countAbove (C : list Z) : Z :=
  fold_left (fun n v => if threshold <? v then n + 1 else n) C 0.

(** [if n > 255 { n = 255 }; return byte(n)]. *)
Definition score (C : list Z) : Z :=
  let n := countAbove C in
  let n := if 255 <? n then 255 else n in
  wrap8 n.

(** The histogram index of one pixel in [contentRGBA]: a [uint8] sum. *)
Definition bucketRGBA (r g b : byte) : Z :=
  add8 (add8 (u8 r) (u8 g)) (u8 b) / 3.

Definition contentBody (pix : list byte) (sp : Z) (C : list Z)
  : outcome (list Z) :=
  r <- index pix sp ;;
  g <- index pix (sp + 1) ;;
  b <- index pix (sp + 2) ;;
  Done (bump C (bucketRGBA r g b)).

(** The histogram [C] of [contentRGBA] when its loop ends. *)
Definition histRGBA (src : RGBA) : outcome (list Z) :=
  let r := Rect src in
  let sp := (MinY r - MinY (Rect src)) * Stride src
            + (MinX r - MinX (Rect src)) * 4 in
  let ep := Dx (Rect src) * Dy (Rect src) * 4 in
  forNe4 (S (length (Pix src))) (contentBody (Pix src)) ep sp (repeat 0 256).

Definition contentRGBA (src : RGBA) : outcome Z :=
  C <- histRGBA src ;;
  Done (score C).

(** The histogram index of one pixel in the generic loop of [Content]. *)
Definition bucketGeneric (c : rgba32) : Z :=
  let r := Z.shiftr (cR c) 8 in
  let g := Z.shiftr (cG c) 8 in
  let b := Z.shiftr (cB c) 8 in
  let Y := Z.quot (add32 (add32 r g) b) 3 in
  wrap8 Y.

Definition contentGenericBody (src : Image) (x y : Z) (C : list Z)
  : outcome (list Z) :=
  c <- At src x y ;;
  Done (bump C (bucketGeneric c)).

(** The histogram [C] of the generic loop of [Content] when it ends. *)
Definition histGeneric (src : Image) (r : Rectangle) : outcome (list Z) :=
  foldM (fun y C =>
           foldM (fun x C => contentGenericBody src x y C)
                 (rangeIncl (MinX r) (MaxX r)) C)
        (rangeIncl (MinY r) (MaxY r)) (repeat 0 (256 * 3)).

(** The generic loop of [Content] (after the fast-path test). *)
Definition contentGeneric (src : Image) (r : Rectangle) : outcome Z :=
  C <- histGeneric src r ;;
  Done (score C).

Definition Content (src : Image) (r : Rectangle) : outcome Z :=
  if rect_eqb (Bounds src) r then
    match src with
    | ImgRGBA p => contentRGBA p
    | ImgOther _ _ => contentGeneric src r
    end
  else contentGeneric src r.

(** ** Concrete images *)

Definition px (r g b a : Z) : list byte := [b8 r; b8 g; b8 b; b8 a].

(** A [w] by [h] image at the origin, without row padding, as
    [image.NewRGBA] lays it out. *)
Definition imageOf (w h : Z) (pix : list byte) : RGBA :=
  mkRGBA pix (4 * w) (mkRect 0 0 w h).

Definition uniformImage (w h : Z) (r g b a : Z) : RGBA :=
  imageOf w h (concat (repeat (px r g b a) (Z.to_nat (w * h)))).

(** The 2x2 scenario of the spec, with any alpha values. *)
Definition scenario (a1 a2 a3 a4 : byte) : RGBA :=
  imageOf 2 2 ([b8 200; b8 100; b8 50; a1] ++ [b8 150; b8 110; b8 60; a2]
               ++ [b8 80; b8 10; b8 10; a3] ++ [b8 30; b8 20; b8 10; a4]).

(** The number of occupied (non-zero) buckets of a histogram. *)
Definition occupied (C : list Z) : Z :=
  fold_right (fun v n => if v =? 0 then n else n + 1) 0 C.

(** ** Vocabulary of the statements *)

(** [o] is a result satisfying [P] or an index panic: it is neither the
    sub-image panic, nor the panic of [image.NewAlpha], nor an exhausted
    loop. *)
Definition ok_or_index {A : Type} (P : A -> Prop) (o : outcome A) : Prop :=
  match o with
  | Done a => P a
  | Panicked IndexOutOfRange => True
  | Panicked SubimageMask => False
  | Panicked NegativeDimensions => False
  | OutOfFuel => False
  end.

(** The rule in the words of the spec, on integer channel values [R], [G]:
    [R >= minR], [minRGdelta <= R - G <= maxRGdelta] and [R / G < maxRGrat],
    the quotient being taken where it is defined. *)
Definition skinRule (R G : Z) : Prop :=
  75 <= R /\ 20 <= R - G <= 90 /\
  G <> 0 /\ (inject_Z R / inject_Z G < maxRGrat)%Q.

(** Buffers as [image.NewRGBA], [image.NewAlpha] and [SubImage] make them:
    the stride covers a row and the last row fits in [Pix]. *)
Definition wfRGBA (p : RGBA) : Prop :=
  0 <= Dx (Rect p) /\ 0 <= Dy (Rect p) /\ 4 * Dx (Rect p) <= Stride p /\
  (Dy (Rect p) - 1) * Stride p + 4 * Dx (Rect p) <= Z.of_nat (length (Pix p)).

Definition wfAlpha (p : Alpha) : Prop :=
  0 <= Dx (ARect p) /\ 0 <= Dy (ARect p) /\ 1 * Dx (ARect p) <= AStride p /\
  (Dy (ARect p) - 1) * AStride p + 1 * Dx (ARect p)
  <= Z.of_nat (length (APix p)).

Definition wfImage (src : Image) : Prop :=
  match src with
  | ImgRGBA p => wfRGBA p
  | ImgOther b _ => 0 <= Dx b /\ 0 <= Dy b
  end.

Definition wfMask (m : Mask) : Prop :=
  match m with
  | MaskAlpha a => wfAlpha a
  | MaskOther _ _ => True
  end.

(** ** Pixels of a buffer in buffer order *)

(** The red, green and blue bytes of the [k]-th pixel of a buffer. *)
Definition redAt (pix : list byte) (k : nat) : byte := nth (4 * k) pix x00.
Definition greenAt (pix : list byte) (k : nat) : byte :=
  nth (4 * k + 1) pix x00.
Definition blueAt (pix : list byte) (k : nat) : byte :=
  nth (4 * k + 2) pix x00.

(** Whether the [k]-th pixel passes the [uint8] test, and how many of the
    first [n] pixels do. *)
Definition skinAt (pix : list byte) (k : nat) : bool :=
  skin8 (redAt pix k) (greenAt pix k).

Definition countSkin (pix : list byte) (n : nat) : Z :=
  Z.of_nat (length (filter (skinAt pix) (seq 0 n))).

(** The bucket of the [k]-th pixel in [contentRGBA], and how many of the
    first [n] pixels fall into bucket [i]. *)
Definition bucketAt (pix : list byte) (k : nat) : Z :=
  bucketRGBA (redAt pix k) (greenAt pix k) (blueAt pix k).

Definition countBucket (pix : list byte) (n : nat) (i : Z) : Z :=
  Z.of_nat (length (filter (fun k => bucketAt pix k =? i) (seq 0 n))).

(** What the walk of [skinMaskColorRGBA] leaves in its state ([mp], [n],
    [mask.Pix]) after [k] pixels, [mpix0] being the mask bytes at entry. *)
Definition maskInv (pix mpix0 : list byte) (k : Z) (s : Z * Z * list byte)
  : Prop :=
  let '(mp, c, mpix) := s in
  mp = k - 1
  /\ length mpix = length mpix0
  /\ c = countSkin pix (Z.to_nat k)
  /\ forall i, nth i mpix x00
               = if (i <? Z.to_nat k)%nat && skinAt pix i then xff
                 else nth i mpix0 x00.

(** What the walk of [contentRGBA] leaves in its histogram after [k]
    pixels. *)
Definition histInv (pix : list byte) (k : Z) (C : list Z) : Prop :=
  length C = 256%nat
  /\ forall i, nth i C 0 = countBucket pix (Z.to_nat k) (Z.of_nat i) mod 256.

(** The points visited by the two nested loops
    [for y := r.Min.Y; y <= r.Max.Y; y++ { for x := r.Min.X; x <= r.Max.X; x++ ]
    in the order they are visited. *)
Definition walk (r : Rectangle) : list (Z * Z) :=
  flat_map (fun y => map (fun x => (x, y)) (rangeIncl (MinX r) (MaxX r)))
           (rangeIncl (MinY r) (MaxY r)).

(** Whether the source pixel at a point passes the test of the generic
    loop. *)
Definition passes (th : thresholds) (src : Image) (p : Z * Z) : bool :=
  match At src (fst p) (snd p) with
  | Done c => skin32 th (cR c) (cG c)
  | _ => false
  end.

(** [a] is the alpha mask [a0] with some of its bytes set to 255. *)
Definition onlyOpaque (a0 a : Alpha) : Prop :=
  ARect a = ARect a0 /\ AStride a = AStride a0
  /\ length (APix a) = length (APix a0)
  /\ forall i, nth i (APix a) x00 = nth i (APix a0) x00
               \/ nth i (APix a) x00 = xff.

(** The state of the generic loop of [skinMaskColor] on an alpha mask [a]
    once it has gone over the first [k] pixels of the buffer [pix]. *)
Definition genInv (pix : list byte) (a : Alpha) (k : Z) (s : Mask * Z)
  : Prop :=
  exists mpix,
    fst s = MaskAlpha (mkAlpha mpix (AStride a) (ARect a))
    /\ maskInv pix (APix a) k (k - 1, snd s, mpix).

(** The bucket of the source pixel at a point in the generic loop of
    [Content], and how many points of a list fall into bucket [i]. *)
Definition bucketOf (src : Image) (p : Z * Z) : Z :=
  match At src (fst p) (snd p) with
  | Done c => bucketGeneric c
  | _ => 0
  end.

Definition countPoints (src : Image) (pts : list (Z * Z)) (i : Z) : Z :=
  Z.of_nat (length (filter (fun p => bucketOf src p =? i) pts)).

(** ** Small inputs on which the statements are instantiated *)

Definition demoSrc : RGBA := scenario xff xff xff xff.
Definition demoSrc' : RGBA := scenario x00 x01 x02 x03.
Definition demoMask : Alpha := blankAlpha (mkRect 0 0 2 2).

(** Whether the point [(x, y)] is among the points of a list. *)
Definition visited (pts : list (Z * Z)) (x y : Z) : bool :=
  existsb (fun q => (fst q =? x) && (snd q =? y)) pts.

(** The state of the generic loop of [skinMaskColor] on an alpha mask [a]
    once it has gone over the points [pts]. *)
Definition alphaInv (th : thresholds) (src : Image) (a : Alpha)
  (pts : list (Z * Z)) (s : Mask * Z) : Prop :=
  exists a1,
    fst s = MaskAlpha a1
    /\ wfAlpha a1
    /\ onlyOpaque a a1
    /\ snd s = Z.of_nat (length (filter (passes th src) pts))
    /\ forall x y,
         PtIn x y (ARect a) = true ->
         nth (Z.to_nat (APixOffset a x y)) (APix a1) x00
         = if visited pts x y && passes th src (x, y) then xff
           else nth (Z.to_nat (APixOffset a x y)) (APix a) x00.

(** * Basic facts *)

Lemma u8_range (b : byte) : 0 <= u8 b < 256.
Proof.
  unfold u8. pose proof (Byte.to_N_bounded b). lia.
Qed.

Lemma u8_b8 (z : Z) : u8 (b8 z) = z mod 256.
Proof.
  unfold u8, b8.
  pose proof (Z.mod_pos_bound z 256 ltac:(lia)) as Hr.
  destruct (Byte.of_N (Z.to_N (z mod 256))) as [b|] eqn:E.
  - apply Byte.to_of_N in E. rewrite E. lia.
  - exfalso. pose proof (Byte.of_N_None_iff (Z.to_N (z mod 256))) as Hn.
    apply Hn in E. lia.
Qed.

Lemma widen_257 (b : byte) : widen b = 257 * u8 b.
Proof. destruct b; reflexivity. Qed.

Lemma fge_fdiv_pos (r g : Z) :
  0 < g -> fge (fdiv r g) maxRGrat = (5 * g <=? 2 * r).
Proof.
  intros Hg. unfold fdiv.
  destruct (Z.eqb_spec g 0) as [->|_]; [lia|].
  cbn [fge]. apply Bool.eq_iff_eq_true.
  rewrite Qle_bool_iff, Z.leb_le.
  destruct g as [|p|p]; try lia.
  unfold maxRGrat, Qle, Qdiv, Qmult, Qinv, inject_Z. cbn.
  destruct r; lia.
Qed.

(** The exact quotient of two 16-bit channels is at least 2.5 or below it by
    at least 2^-17, where neighbouring [float32] values are 2^-22 apart. *)
Lemma ratio_gap (r g : Z) :
  0 <= r -> 0 < g <= 65535 -> 2 * r < 5 * g ->
  (inject_Z r / inject_Z g + (1 # 131070) <= maxRGrat)%Q.
Proof.
  intros Hr Hg Hlt. destruct g as [|p|p]; try lia.
  unfold maxRGrat, Qle, Qplus, Qdiv, Qmult, Qinv, inject_Z.
  cbn [Qnum Qden]. destruct r as [|q|q]; lia.
Qed.

Lemma fge_fdiv_zero (r : Z) : 0 < r -> fge (fdiv r 0) maxRGrat = true.
Proof.
  intros Hr. unfold fdiv. cbn.
  destruct (Z.eqb_spec r 0); [lia|].
  destruct (Z.ltb_spec 0 r); [reflexivity|lia].
Qed.

(** * Outcomes of the loops *)

Lemma ok_or_index_weaken {A : Type} (P Q : A -> Prop) (o : outcome A) :
  (forall a, P a -> Q a) -> ok_or_index P o -> ok_or_index Q o.
Proof.
  intros HPQ. destruct o as [a|[]|]; cbn; auto.
Qed.

Lemma bind_ok {A B : Type} (P : A -> Prop) (Q : B -> Prop)
  (m : outcome A) (k : A -> outcome B) :
  ok_or_index P m -> (forall a, P a -> ok_or_index Q (k a)) ->
  ok_or_index Q (bind m k).
Proof.
  intros Hm Hk. destruct m as [a|[]|]; cbn in *; auto.
Qed.

Lemma index_ok {A : Type} (l : list A) (i : Z) :
  ok_or_index (fun _ => 0 <= i < Z.of_nat (length l)) (index l i).
Proof.
  unfold index. destruct (Z.ltb_spec i 0); cbn; [exact I|].
  destruct (nth_error l (Z.to_nat i)) eqn:E; cbn; [|exact I].
  assert (Z.to_nat i < length l)%nat
    by (apply nth_error_Some; congruence).
  lia.
Qed.

Lemma store_ok {A : Type} (l : list A) (i : Z) (v : A) :
  ok_or_index (fun _ => True) (store l i v).
Proof.
  unfold store. destruct (i <? 0); cbn; [exact I|].
  destruct (i <? Z.of_nat (length l)); cbn; exact I.
Qed.

Lemma foldM_ok {A S : Type} (I : S -> Prop) (body : A -> S -> outcome S) :
  (forall a s, I s -> ok_or_index I (body a s)) ->
  forall l s, I s -> ok_or_index I (foldM body l s).
Proof.
  intros Hbody. induction l as [|a l IH]; intros s Hs; cbn; [exact Hs|].
  apply bind_ok with (P := I); auto.
Qed.

(** ** The loop [for ; sp != ep; sp += 4] *)

Section ForNe4.
Context {St : Type}.
Variable body : Z -> St -> outcome St.

(** A loop whose body only succeeds at offsets inside a buffer of [len]
    bytes ends within [len + 1] iterations. *)
Lemma forNe4_ok (I : St -> Prop) (len : Z) :
  (forall sp s, I s ->
     ok_or_index (fun s' => I s' /\ 0 <= sp < len) (body sp s)) ->
  forall fuel ep sp s,
    Z.max 0 (len - sp) < Z.of_nat fuel -> I s ->
    ok_or_index I (forNe4 fuel body ep sp s).
Proof.
  intros Hbody. induction fuel as [|fuel IH]; intros ep sp s Hfuel Hs.
  - lia.
  - cbn [forNe4]. destruct (sp =? ep); [exact Hs|].
    eapply bind_ok; [apply Hbody; exact Hs|].
    cbn beta. intros s' [Hs' Hsp]. apply IH; [lia|exact Hs'].
Qed.

(** An invariant of the loop body holds when the loop ends. *)
Lemma forNe4_invariant (I : Z -> St -> Prop) :
  (forall sp s s', I sp s -> body sp s = Done s' -> I (sp + 4) s') ->
  forall fuel ep sp s s',
    I sp s -> forNe4 fuel body ep sp s = Done s' -> I ep s'.
Proof.
  intros Hbody. induction fuel as [|fuel IH]; intros ep sp s s' Hs Hrun.
  - discriminate.
  - cbn [forNe4] in Hrun. destruct (Z.eqb_spec sp ep) as [->|Hne].
    + injection Hrun as <-. exact Hs.
    + destruct (body sp s) as [s1| |] eqn:E; cbn in Hrun; try discriminate.
      eapply IH; [|exact Hrun]. eapply Hbody; eauto.
Qed.

(** A loop of [m] iterations whose body always succeeds with the same
    update [f]. *)
Lemma forNe4_count (f : St -> St) :
  forall m fuel ep sp s,
    (m < fuel)%nat -> ep = sp + 4 * Z.of_nat m ->
    (forall j s0, 0 <= j < Z.of_nat m -> body (sp + 4 * j) s0 = Done (f s0)) ->
    forNe4 fuel body ep sp s = Done (Nat.iter m f s).
Proof.
  induction m as [|m IH]; intros fuel ep sp s Hfuel Hep Hbody.
  - destruct fuel; [lia|]. cbn [forNe4].
    replace (sp =? ep) with true by (symmetry; apply Z.eqb_eq; lia).
    reflexivity.
  - destruct fuel; [lia|]. cbn [forNe4].
    destruct (Z.eqb_spec sp ep); [lia|].
    specialize (Hbody 0 s ltac:(lia)) as H0.
    replace (sp + 4 * 0) with sp in H0 by lia. rewrite H0. cbn [bind].
    rewrite (IH fuel ep (sp + 4) (f s)); [|lia|lia|].
    + rewrite <- Nat.iter_succ_r. reflexivity.
    + intros j s0 Hj. replace (sp + 4 + 4 * j) with (sp + 4 * (j + 1)) by lia.
      apply Hbody. lia.
Qed.

(** A loop of [m] iterations, counted from [j], whose body succeeds under an
    invariant indexed by the iteration, returns. *)
Lemma forNe4_done (I : Z -> St -> Prop) (sp : Z) :
  forall m fuel j s,
    (m < fuel)%nat -> 0 <= j ->
    (forall k s0, j <= k < j + Z.of_nat m -> I k s0 ->
                  exists s', body (sp + 4 * k) s0 = Done s' /\ I (k + 1) s') ->
    I j s ->
    exists s', forNe4 fuel body (sp + 4 * (j + Z.of_nat m)) (sp + 4 * j) s
               = Done s' /\ I (j + Z.of_nat m) s'.
Proof.
  induction m as [|m IH]; intros fuel j s Hfuel Hj Hbody Hs.
  - destruct fuel; [lia|]. cbn [forNe4].
    replace (j + Z.of_nat 0) with j by lia. rewrite Z.eqb_refl. eauto.
  - destruct fuel; [lia|]. cbn [forNe4].
    destruct (Z.eqb_spec (sp + 4 * j) (sp + 4 * (j + Z.of_nat (S m))));
      [lia|].
    destruct (Hbody j s ltac:(lia) Hs) as (s1 & -> & Hs1). cbn [bind].
    replace (sp + 4 * j + 4) with (sp + 4 * (j + 1)) by lia.
    replace (j + Z.of_nat (S m)) with (j + 1 + Z.of_nat m) by lia.
    apply IH; [lia|lia| |exact Hs1].
    intros k s0 Hk. apply Hbody. lia.
Qed.

End ForNe4.

Lemma rect_eqb_eq (r s : Rectangle) : rect_eqb r s = true <-> r = s.
Proof.
  unfold rect_eqb. destruct r, s; cbn.
  rewrite !andb_true_iff, !Z.eqb_eq. split.
  - intros [[[-> ->] ->] ->]. reflexivity.
  - intros H. injection H as -> -> -> ->. auto.
Qed.

Lemma At_ok (src : Image) (x y : Z) : ok_or_index (fun _ => True) (At src x y).
Proof.
  destruct src as [p|b f]; cbn; [|exact I].
  unfold RGBA_At. destruct (negb (PtIn x y (Rect p))); cbn; [exact I|].
  repeat (eapply bind_ok; [apply index_ok|cbn beta; intros ? _]).
  exact I.
Qed.

Lemma Mask_SetOpaque_ok (m : Mask) (x y : Z) :
  ok_or_index (fun _ => True) (Mask_SetOpaque m x y).
Proof.
  destruct m as [a|b l]; cbn; [|exact I].
  eapply bind_ok with (P := fun _ => True); [|intros; exact I].
  unfold Alpha_SetOpaque. destruct (negb (PtIn x y (ARect a))); cbn; [exact I|].
  eapply bind_ok; [apply store_ok|intros; exact I].
Qed.

Lemma skinMaskColorGeneric_ok (th : thresholds) (src : Image) (mask : Mask) :
  ok_or_index (fun _ => True) (skinMaskColorGeneric th src mask).
Proof.
  unfold skinMaskColorGeneric.
  eapply bind_ok with (P := fun _ => True).
  - apply foldM_ok; [|exact I]. intros y s _.
    apply foldM_ok; [|exact I]. intros x [m n] _. unfold genericBody.
    eapply bind_ok; [apply At_ok|]. intros c _.
    destruct (skin32 th (cR c) (cG c)); [|exact I].
    eapply bind_ok; [apply Mask_SetOpaque_ok|intros; exact I].
  - intros [m n] _. exact I.
Qed.

Lemma maskBody_ok (pix : list byte) (sp : Z) (s : Z * Z * list byte) :
  ok_or_index (fun _ => True /\ 0 <= sp < Z.of_nat (length pix))
              (maskBody pix sp s).
Proof.
  destruct s as [[mp n] mpix]. unfold maskBody.
  eapply bind_ok; [apply index_ok|]. cbn beta. intros g _.
  eapply bind_ok; [apply index_ok|]. cbn beta. intros r Hr.
  destruct (skin8 r g); [|cbn; auto].
  eapply bind_ok; [apply store_ok|]. cbn. auto.
Qed.

Lemma skinMaskColorRGBA_ok (src : RGBA) (mask : Alpha) :
  Rect src = ARect mask ->
  ok_or_index (fun _ => True) (skinMaskColorRGBA src mask).
Proof.
  intros Hrect. unfold skinMaskColorRGBA.
  replace (rect_eqb (Rect src) (ARect mask)) with true
    by (symmetry; apply rect_eqb_eq; exact Hrect).
  cbn [negb]. rewrite Hrect, !Z.sub_diag. cbn [Z.mul Z.add].
  eapply bind_ok with (P := fun _ => True).
  - apply forNe4_ok with (len := Z.of_nat (length (Pix src)));
      [intros sp s _; apply maskBody_ok| lia | exact I].
  - intros [[mp n] mpix] _. exact I.
Qed.

(** [image.NewAlpha] returns on rectangles without a negative side, and
    panics on the others. *)
Lemma NewAlpha_done (r : Rectangle) :
  0 <= Dx r -> 0 <= Dy r -> NewAlpha r = Done (blankAlpha r).
Proof.
  intros Hx Hy. unfold NewAlpha.
  destruct (Z.ltb_spec (Dx r) 0), (Z.ltb_spec (Dy r) 0); try lia. reflexivity.
Qed.

Lemma NewAlpha_panics (r : Rectangle) :
  Dx r < 0 \/ Dy r < 0 -> NewAlpha r = Panicked NegativeDimensions.
Proof.
  intros H. unfold NewAlpha.
  destruct (Z.ltb_spec (Dx r) 0), (Z.ltb_spec (Dy r) 0); try lia; reflexivity.
Qed.

(** A nil mask is replaced by a fresh one; the call then goes on as with a
    supplied mask. *)
Lemma skinMaskColor_nil (th : thresholds) (src : Image) :
  0 <= Dx (Bounds src) -> 0 <= Dy (Bounds src) ->
  skinMaskColor th src None
  = skinMaskColor th src (Some (MaskAlpha (blankAlpha (Bounds src)))).
Proof.
  intros Hx Hy. unfold skinMaskColor. rewrite NewAlpha_done by assumption.
  reflexivity.
Qed.

Lemma skinMaskColor_nil_panics (th : thresholds) (src : Image) :
  Dx (Bounds src) < 0 \/ Dy (Bounds src) < 0 ->
  skinMaskColor th src None = Panicked NegativeDimensions.
Proof.
  intros H. unfold skinMaskColor. rewrite NewAlpha_panics by assumption.
  reflexivity.
Qed.

Lemma skinMaskColor_some_ok (th : thresholds) (src : Image) (m : Mask) :
  ok_or_index (fun _ => True) (skinMaskColor th src (Some m)).
Proof.
  unfold skinMaskColor. cbn [bind].
  destruct (rect_eqb (Bounds src) (Mask_Bounds m)) eqn:E;
    [|apply skinMaskColorGeneric_ok].
  destruct src as [p|b f]; [|apply skinMaskColorGeneric_ok].
  destruct m as [a|b l]; [|apply skinMaskColorGeneric_ok].
  apply rect_eqb_eq in E. cbn in E.
  eapply bind_ok; [apply skinMaskColorRGBA_ok; exact E|].
  intros res _. exact I.
Qed.

(** Whatever the source and the mask, [skinMaskColor] ends with a result, an
    index panic or the panic of [image.NewAlpha]. *)
Lemma skinMaskColor_ok (th : thresholds) (src : Image) (mask : option Mask) :
  ok_or_index (fun _ => True) (skinMaskColor th src mask)
  \/ skinMaskColor th src mask = Panicked NegativeDimensions.
Proof.
  destruct mask as [m|]; [left; apply skinMaskColor_some_ok|].
  destruct (Z.ltb_spec (Dx (Bounds src)) 0) as [Hx|Hx];
    [right; apply skinMaskColor_nil_panics; lia|].
  destruct (Z.ltb_spec (Dy (Bounds src)) 0) as [Hy|Hy];
    [right; apply skinMaskColor_nil_panics; lia|].
  left. rewrite skinMaskColor_nil by assumption. apply skinMaskColor_some_ok.
Qed.

(** ** The score *)

Lemma countAbove_acc (C : list Z) (acc : Z) :
  fold_left (fun n v => if threshold <? v then n + 1 else n) C acc
  = acc + countAbove C.
Proof.
  unfold countAbove. revert acc.
  induction C as [|v C IH]; intros acc; cbn [fold_left]; [lia|].
  rewrite IH. rewrite (IH (if threshold <? v then 0 + 1 else 0)).
  destruct (threshold <? v); lia.
Qed.

Lemma countAbove_cons (v : Z) (C : list Z) :
  countAbove (v :: C) = (if threshold <? v then 1 else 0) + countAbove C.
Proof.
  unfold countAbove at 1. cbn [fold_left]. rewrite countAbove_acc.
  destruct (threshold <? v); lia.
Qed.

Lemma countAbove_app (C D : list Z) :
  countAbove (C ++ D) = countAbove C + countAbove D.
Proof.
  induction C as [|v C IH]; [reflexivity|].
  cbn [app]. rewrite !countAbove_cons, IH. lia.
Qed.

Lemma countAbove_repeat0 (n : nat) : countAbove (repeat 0 n) = 0.
Proof.
  induction n as [|n IH]; [reflexivity|].
  cbn [repeat]. rewrite countAbove_cons, IH. reflexivity.
Qed.

Lemma countAbove_bounds (C : list Z) :
  0 <= countAbove C <= Z.of_nat (length C).
Proof.
  induction C as [|v C IH]; [cbn; lia|].
  rewrite countAbove_cons. cbn [length].
  destruct (threshold <? v); lia.
Qed.

Lemma score_range (C : list Z) : 0 <= score C <= 255.
Proof.
  unfold score, wrap8.
  pose proof (Z.mod_pos_bound
                (if 255 <? countAbove C then 255 else countAbove C) 256
                ltac:(lia)).
  lia.
Qed.

(** The returned byte is the count of buckets above the threshold, capped. *)
Lemma score_min (C : list Z) : score C = Z.min (countAbove C) 255.
Proof.
  unfold score, wrap8. pose proof (countAbove_bounds C).
  destruct (Z.ltb_spec 255 (countAbove C)).
  - rewrite Z.mod_small; lia.
  - rewrite Z.mod_small; lia.
Qed.

Lemma contentBody_ok (pix : list byte) (sp : Z) (C : list Z) :
  ok_or_index (fun _ => True /\ 0 <= sp < Z.of_nat (length pix))
              (contentBody pix sp C).
Proof.
  unfold contentBody.
  eapply bind_ok; [apply index_ok|]. cbn beta. intros r Hr.
  eapply bind_ok; [apply index_ok|]. cbn beta. intros g _.
  eapply bind_ok; [apply index_ok|]. cbn beta. intros b _.
  cbn. auto.
Qed.

Lemma histRGBA_ok (src : RGBA) : ok_or_index (fun _ => True) (histRGBA src).
Proof.
  unfold histRGBA. rewrite !Z.sub_diag. cbn [Z.mul Z.add].
  apply forNe4_ok with (len := Z.of_nat (length (Pix src)));
    [intros sp s _; apply contentBody_ok| lia | exact I].
Qed.

Lemma histGeneric_ok (src : Image) (r : Rectangle) :
  ok_or_index (fun _ => True) (histGeneric src r).
Proof.
  unfold histGeneric.
  apply foldM_ok; [|exact I]. intros y C _.
  apply foldM_ok; [|exact I]. intros x C' _. unfold contentGenericBody.
  eapply bind_ok; [apply At_ok|]. intros c _. exact I.
Qed.

Lemma Content_ok (src : Image) (r : Rectangle) :
  ok_or_index (fun s => 0 <= s <= 255) (Content src r).
Proof.
  assert (Hg : ok_or_index (fun s => 0 <= s <= 255) (contentGeneric src r)).
  { unfold contentGeneric. eapply bind_ok; [apply histGeneric_ok|].
    intros C _. apply score_range. }
  unfold Content. destruct (rect_eqb (Bounds src) r); [|exact Hg].
  destruct src as [p|b f]; [|exact Hg].
  unfold contentRGBA. eapply bind_ok; [apply histRGBA_ok|].
  intros C _. apply score_range.
Qed.

(** A source that is not an [*image.RGBA] cannot panic. *)
Lemma Content_other_done (b : Rectangle) (f : Z -> Z -> rgba32)
  (r : Rectangle) :
  exists s, Content (ImgOther b f) r = Done s /\ 0 <= s <= 255.
Proof.
  assert (H : forall l1 l2 C, exists C',
             foldM (fun y C =>
                      foldM (fun x C => contentGenericBody (ImgOther b f) x y C)
                            l2 C) l1 C = Done C').
  { assert (Hin : forall y l2 C, exists C',
              foldM (fun x C => contentGenericBody (ImgOther b f) x y C) l2 C
              = Done C').
    { intros y. induction l2 as [|x l2 IH]; intros C; cbn; [eauto|].
      apply IH. }
    induction l1 as [|y l1 IH]; intros l2 C; cbn [foldM]; [eauto|].
    destruct (Hin y l2 C) as [C1 ->]. cbn [bind]. apply IH. }
  assert (Hg : exists s, contentGeneric (ImgOther b f) r = Done s
                         /\ 0 <= s <= 255).
  { unfold contentGeneric, histGeneric.
    destruct (H (rangeIncl (MinY r) (MaxY r)) (rangeIncl (MinX r) (MaxX r))
                (repeat 0 (256 * 3))) as [C ->].
    cbn [bind]. eexists. split; [reflexivity|apply score_range]. }
  unfold Content. destruct (rect_eqb (Bounds (ImgOther b f)) r); exact Hg.
Qed.

(** * The skin rule *)

Lemma ratio_lt_iff (R G : Z) :
  0 < G -> ((inject_Z R / inject_Z G < maxRGrat)%Q <-> 2 * R < 5 * G).
Proof.
  intros HG. destruct G as [|p|p]; try lia.
  unfold maxRGrat, Qlt, Qdiv, Qmult, Qinv, inject_Z. cbn.
  destruct R; lia.
Qed.

Lemma skinRule_iff (R G : Z) :
  0 <= G -> (skinRule R G <-> 75 <= R /\ 20 <= R - G <= 90 /\ 2 * R < 5 * G).
Proof.
  intros HG. unfold skinRule. split.
  - intros (H1 & H2 & H3 & H4). apply ratio_lt_iff in H4; lia.
  - intros (H1 & H2 & H3). repeat split; try lia. apply ratio_lt_iff; lia.
Qed.

(** What [skinMaskColorRGBA] tests: the rule with the difference taken in
    [uint8]. *)
Lemma skin8_spec (r g : byte) :
  skin8 r g = true <->
  75 <= u8 r /\ 20 <= (u8 r - u8 g) mod 256 <= 90 /\ 2 * u8 r < 5 * u8 g.
Proof.
  pose proof (u8_range r) as Hr. pose proof (u8_range g) as Hg.
  unfold skin8, sub8, wrap8. cbn [minR minRGdelta maxRGdelta thresholdsRGBA].
  destruct (Z.ltb_spec (u8 r) 75); [split; [discriminate|lia]|].
  destruct (Z.ltb_spec ((u8 r - u8 g) mod 256) 20);
    cbn [orb]; [split; [discriminate|lia]|].
  destruct (Z.ltb_spec 90 ((u8 r - u8 g) mod 256));
    [split; [discriminate|lia]|].
  destruct (Z.eq_dec (u8 g) 0) as [E|E].
  - rewrite E, fge_fdiv_zero by lia. split; [discriminate|lia].
  - rewrite fge_fdiv_pos by lia.
    destruct (Z.leb_spec (5 * u8 g) (2 * u8 r)); split;
      try discriminate; try lia; auto.
Qed.

(** Where red is at least green the [uint8] difference is the difference. *)
Lemma skin8_rule_no_wrap (r g : byte) :
  u8 g <= u8 r -> (skin8 r g = true <-> skinRule (u8 r) (u8 g)).
Proof.
  intros Hle. pose proof (u8_range r). pose proof (u8_range g).
  rewrite skin8_spec, skinRule_iff by lia.
  rewrite (Z.mod_small (u8 r - u8 g)) by lia. reflexivity.
Qed.

(** The generic loop on the channels of an [*image.RGBA] pixel, with the
    thresholds scaled to 16 bits, tests the rule on the 8-bit values. *)
Lemma skin32_rule (r g : byte) :
  skin32 thresholds16 (widen r) (widen g) = true <-> skinRule (u8 r) (u8 g).
Proof.
  pose proof (u8_range r) as Hr. pose proof (u8_range g) as Hg.
  rewrite skinRule_iff, !widen_257 by lia.
  unfold skin32, sub32, wrap32.
  change (minR thresholds16) with 19275.
  change (minRGdelta thresholds16) with 5140.
  change (maxRGdelta thresholds16) with 23130.
  destruct (Z.ltb_spec (257 * u8 r) 19275); [split; [discriminate|lia]|].
  destruct (Z.le_gt_cases (u8 g) (u8 r)) as [Hle|Hgt].
  - rewrite (Z.mod_small (257 * u8 r - 257 * u8 g)) by lia.
    destruct (Z.ltb_spec (257 * u8 r - 257 * u8 g) 5140);
      cbn [orb]; [split; [discriminate|lia]|].
    destruct (Z.ltb_spec 23130 (257 * u8 r - 257 * u8 g));
      [split; [discriminate|lia]|].
    destruct (Z.eq_dec (u8 g) 0) as [E|E].
    + rewrite E. change (257 * 0) with 0.
      rewrite fge_fdiv_zero by lia. split; [discriminate|lia].
    + rewrite fge_fdiv_pos by lia.
      destruct (Z.leb_spec (5 * (257 * u8 g)) (2 * (257 * u8 r))); split;
        try discriminate; try lia; auto.
  - assert (E : (257 * u8 r - 257 * u8 g) mod 4294967296
                = 257 * u8 r - 257 * u8 g + 4294967296).
    { symmetry. apply Z.mod_unique with (q := -1); lia. }
    rewrite E.
    destruct (Z.ltb_spec (257 * u8 r - 257 * u8 g + 4294967296) 5140);
      cbn [orb]; [split; [discriminate|lia]|].
    destruct (Z.ltb_spec 23130 (257 * u8 r - 257 * u8 g + 4294967296));
      [split; [discriminate|lia]|lia].
Qed.

(** No choice of the three integer thresholds makes the generic test agree
    with the [uint8] test on every pixel of an [*image.RGBA]. *)
Lemma skin_tests_disagree (th : thresholds) :
  exists r g : byte, skin32 th (widen r) (widen g) <> skin8 r g.
Proof.
  destruct (skin32 th (widen (b8 80)) (widen (b8 255))) eqn:EA;
    [|exists (b8 80), (b8 255); rewrite EA; vm_compute; discriminate].
  destruct (skin32 th (widen (b8 100)) (widen (b8 80))) eqn:EC;
    [|exists (b8 100), (b8 80); rewrite EC; vm_compute; discriminate].
  exists (b8 200), (b8 100).
  replace (skin8 (b8 200) (b8 100)) with false by (vm_compute; reflexivity).
  revert EA EC. unfold skin32.
  change (widen (b8 80)) with 20560. change (widen (b8 255)) with 65535.
  change (widen (b8 100)) with 25700. change (widen (b8 200)) with 51400.
  change (sub32 20560 65535) with 4294922321.
  change (sub32 25700 20560) with 5140.
  change (sub32 51400 25700) with 25700.
  change (fge (fdiv 51400 25700) maxRGrat) with false.
  destruct (Z.ltb_spec 20560 (minR th)); [discriminate|].
  destruct (Z.ltb_spec 4294922321 (minRGdelta th));
    cbn [orb]; [discriminate|].
  destruct (Z.ltb_spec (maxRGdelta th) 4294922321); [discriminate|].
  intros _.
  destruct (Z.ltb_spec 25700 (minR th)); [discriminate|].
  destruct (Z.ltb_spec 5140 (minRGdelta th)); cbn [orb]; [discriminate|].
  intros _.
  destruct (Z.ltb_spec 51400 (minR th)); [lia|].
  destruct (Z.ltb_spec 25700 (minRGdelta th)); [lia|].
  destruct (Z.ltb_spec (maxRGdelta th) 25700); [lia|].
  cbn. discriminate.
Qed.

(** * Lists updated by index *)

Lemma length_update {A : Type} (l : list A) (n : nat) (v : A) :
  length (update l n v) = length l.
Proof.
  revert n. induction l as [|h t IH]; intros [|n]; cbn; auto.
Qed.

Lemma nth_update_same {A : Type} (l : list A) (n : nat) (v d : A) :
  (n < length l)%nat -> nth n (update l n v) d = v.
Proof.
  revert n. induction l as [|h t IH]; intros [|n] H; cbn in *; try lia; auto.
  apply IH. lia.
Qed.

Lemma nth_update_other {A : Type} (l : list A) (n m : nat) (v d : A) :
  n <> m -> nth m (update l n v) d = nth m l d.
Proof.
  revert n m. induction l as [|h t IH]; intros [|n] [|m] H; cbn; auto.
  congruence.
Qed.

Lemma update_update {A : Type} (l : list A) (n : nat) (v w : A) :
  update (update l n v) n w = update l n w.
Proof.
  revert n. induction l as [|h t IH]; intros [|n]; cbn; auto.
  rewrite IH. reflexivity.
Qed.

Lemma update_repeat {A : Type} (v : A) (len n : nat) :
  update (repeat v len) n v = repeat v len.
Proof.
  revert n. induction len as [|len IH]; intros [|n]; cbn; auto.
  rewrite IH. reflexivity.
Qed.

Lemma nth_repeat0 (len j : nat) : nth j (repeat 0 len) 0 = 0.
Proof.
  revert j. induction len as [|len IH]; intros [|j]; cbn; auto.
Qed.

(** [m] increments of one [byte] counter of a zeroed histogram. *)
Lemma bump_iter (len : nat) (i : Z) (m : nat) :
  0 <= i < Z.of_nat len ->
  Nat.iter m (fun C => bump C i) (repeat 0 len)
  = update (repeat 0 len) (Z.to_nat i) (Z.of_nat m mod 256).
Proof.
  intros Hi. induction m as [|m IH].
  - change (Z.of_nat 0 mod 256) with 0.
    rewrite update_repeat. reflexivity.
  - rewrite Nat.iter_succ, IH. unfold bump.
    rewrite nth_update_same by (rewrite repeat_length; lia).
    rewrite update_update. f_equal. unfold add8, wrap8.
    rewrite Zplus_mod_idemp_l. f_equal. lia.
Qed.

Lemma countAbove_update_repeat0 (len n : nat) (v : Z) :
  (n < len)%nat ->
  countAbove (update (repeat 0 len) n v) = if threshold <? v then 1 else 0.
Proof.
  revert n. induction len as [|len IH]; intros [|n] H; cbn [repeat update];
    try lia; rewrite countAbove_cons.
  - rewrite countAbove_repeat0. lia.
  - rewrite IH by lia. reflexivity.
Qed.

Lemma occupied_update_repeat0 (len n : nat) (v : Z) :
  (n < len)%nat ->
  occupied (update (repeat 0 len) n v) = if v =? 0 then 0 else 1.
Proof.
  assert (H0 : forall k, occupied (repeat 0 k) = 0).
  { induction k as [|k IH]; cbn; auto. }
  revert n. induction len as [|len IH]; intros [|n] H; cbn [repeat update];
    try lia.
  - cbn [occupied fold_right]. fold (occupied (repeat 0 len)). rewrite H0.
    destruct (v =? 0); reflexivity.
  - cbn [occupied fold_right]. fold (occupied (update (repeat 0 len) n v)).
    rewrite IH by lia. reflexivity.
Qed.

(** ** Buffers holding one color *)

Lemma nth_error_uniform (c : list byte) (n k j : nat) :
  length c = 4%nat -> (k < n)%nat -> (j < 4)%nat ->
  nth_error (concat (repeat c n)) (4 * k + j) = nth_error c j.
Proof.
  intros Hc. revert n. induction k as [|k IH]; intros n Hk Hj.
  - destruct n as [|n]; [lia|]. cbn [repeat concat].
    rewrite nth_error_app1 by lia. reflexivity.
  - destruct n as [|n]; [lia|]. cbn [repeat concat].
    rewrite nth_error_app2 by lia.
    replace (4 * S k + j - length c)%nat with (4 * k + j)%nat by lia.
    apply IH; lia.
Qed.

Lemma index_uniform (c0 c1 c2 c3 : byte) (n : nat) (k j : Z) :
  0 <= k < Z.of_nat n -> 0 <= j < 4 ->
  index (concat (repeat [c0; c1; c2; c3] n)) (4 * k + j)
  = Done (nth (Z.to_nat j) [c0; c1; c2; c3] x00).
Proof.
  intros Hk Hj. unfold index.
  destruct (Z.ltb_spec (4 * k + j) 0); [lia|].
  replace (Z.to_nat (4 * k + j)) with (4 * Z.to_nat k + Z.to_nat j)%nat
    by lia.
  rewrite nth_error_uniform by (cbn; lia).
  assert (Hj' : (Z.to_nat j < 4)%nat) by lia.
  destruct (Z.to_nat j) as [|[|[|[|?]]]]; cbn; try reflexivity; lia.
Qed.

Lemma length_uniform (c : list byte) (n : nat) :
  length c = 4%nat -> length (concat (repeat c n)) = (4 * n)%nat.
Proof.
  intros Hc. induction n as [|n IH]; [reflexivity|].
  cbn [repeat concat]. rewrite length_app, IH, Hc. lia.
Qed.

Lemma bucketRGBA_range (r g b : byte) : 0 <= bucketRGBA r g b < 256.
Proof.
  unfold bucketRGBA, add8, wrap8.
  pose proof (Z.mod_pos_bound ((u8 r + u8 g) mod 256 + u8 b) 256 ltac:(lia)).
  split; [apply Z.div_pos; lia|].
  apply Z.div_lt_upper_bound; lia.
Qed.

(** The histogram of [contentRGBA] on a buffer of [n] equal pixels. *)
Lemma histRGBA_uniform (p : RGBA) (r g b a : byte) :
  0 <= Dx (Rect p) -> 0 <= Dy (Rect p) ->
  Pix p = concat (repeat [r; g; b; a]
                         (Z.to_nat (Dx (Rect p) * Dy (Rect p)))) ->
  histRGBA p = Done (update (repeat 0 256) (Z.to_nat (bucketRGBA r g b))
                            ((Dx (Rect p) * Dy (Rect p)) mod 256)).
Proof.
  intros Hx Hy Hpix. unfold histRGBA.
  rewrite !Z.sub_diag. cbn [Z.mul Z.add].
  set (n := Z.to_nat (Dx (Rect p) * Dy (Rect p))) in *.
  assert (Hn : Z.of_nat n = Dx (Rect p) * Dy (Rect p)) by (unfold n; nia).
  rewrite (forNe4_count (contentBody (Pix p))
             (fun C => bump C (bucketRGBA r g b)) n).
  - rewrite bump_iter by (pose proof (bucketRGBA_range r g b); lia).
    rewrite Hn. reflexivity.
  - rewrite Hpix, length_uniform by reflexivity. lia.
  - lia.
  - intros j C Hj. unfold contentBody. rewrite Hpix.
    replace (0 + 4 * j) with (4 * j + 0) by lia.
    rewrite index_uniform by lia.
    replace (4 * j + 0 + 1) with (4 * j + 1) by lia.
    rewrite index_uniform by lia.
    replace (4 * j + 0 + 2) with (4 * j + 2) by lia.
    rewrite index_uniform by lia.
    reflexivity.
Qed.

(** A loop invariant of [skinMaskColorRGBA]: [n] counts at most the pixels
    walked so far. *)
Lemma skinMaskColorRGBA_count (src : RGBA) (mask : Alpha)
  (res : Alpha * fquot) :
  skinMaskColorRGBA src mask = Done res ->
  exists n, snd res = fdiv n (Dy (Rect src) * Dx (Rect src))
            /\ 0 <= n <= Dy (Rect src) * Dx (Rect src)
            /\ ARect (fst res) = ARect mask.
Proof.
  unfold skinMaskColorRGBA.
  destruct (rect_eqb (Rect src) (ARect mask)) eqn:E; cbn [negb];
    [|discriminate].
  apply rect_eqb_eq in E. rewrite <- E, !Z.sub_diag. cbn [Z.mul Z.add].
  destruct (forNe4 _ _ _ _ _) as [[[mp n] mpix]| |] eqn:Hrun;
    cbn [bind]; try discriminate.
  intros H. injection H as <-. cbn [fst snd ARect].
  exists n. split; [reflexivity|].
  apply (forNe4_invariant _
           (fun sp (s : Z * Z * list byte) =>
              let '(mp, n, _) := s in sp = 4 * (mp + 1) /\ 0 <= n <= mp + 1))
    in Hrun.
  - destruct Hrun as [Hep Hn]. rewrite (Z.mul_comm (Dy (Rect src))).
    split; [lia|reflexivity].
  - intros sp [[mp0 n0] mpix0] [[mp1 n1] mpix1] [Hsp Hn0]. unfold maskBody.
    destruct (index (Pix src) (sp + 1)) as [g| |]; cbn [bind];
      try discriminate.
    destruct (index (Pix src) sp) as [r| |]; cbn [bind]; try discriminate.
    destruct (skin8 r g).
    + destruct (store mpix0 (mp0 + 1) xff); cbn [bind]; try discriminate.
      intros H; injection H as <- <- <-. lia.
    + intros H; injection H as <- <- <-. lia.
  - cbn. lia.
Qed.

(** * Well-formed inputs: every call returns *)

Lemma flat_bound (d s w h len j : Z) :
  0 < d -> 0 <= w -> 0 <= h -> d * w <= s -> (h - 1) * s + d * w <= len ->
  0 <= j < w * h -> d * j + d <= len.
Proof.
  intros Hd Hw Hh Hs Hlen Hj.
  assert (1 <= h) by nia.
  assert (d * (j + 1) <= d * (w * h)) by nia.
  assert (d * w * (h - 1) <= s * (h - 1)) by nia.
  nia.
Qed.

Lemma offset_bound (d s w h len x y : Z) :
  0 < d -> d * w <= s -> (h - 1) * s + d * w <= len ->
  0 <= x < w -> 0 <= y < h ->
  0 <= y * s + x * d /\ y * s + x * d + d <= len.
Proof.
  intros Hd Hs Hlen Hx Hy.
  assert (0 <= s) by nia.
  assert (y * s <= (h - 1) * s) by nia.
  nia.
Qed.

Lemma index_done {A : Type} (l : list A) (i : Z) :
  0 <= i < Z.of_nat (length l) -> exists a, index l i = Done a.
Proof.
  intros Hi. unfold index. destruct (Z.ltb_spec i 0); [lia|].
  destruct (nth_error l (Z.to_nat i)) eqn:E; [eauto|].
  apply nth_error_None in E. lia.
Qed.

Lemma store_done {A : Type} (l : list A) (i : Z) (v : A) :
  0 <= i < Z.of_nat (length l) ->
  store l i v = Done (update l (Z.to_nat i) v).
Proof.
  intros Hi. unfold store. destruct (Z.ltb_spec i 0); [lia|].
  destruct (Z.ltb_spec i (Z.of_nat (length l))); [reflexivity|lia].
Qed.

Lemma foldM_done {A S : Type} (I : S -> Prop) (body : A -> S -> outcome S) :
  (forall a s, I s -> exists s', body a s = Done s' /\ I s') ->
  forall l s, I s -> exists s', foldM body l s = Done s' /\ I s'.
Proof.
  intros Hbody. induction l as [|a l IH]; intros s Hs; cbn [foldM]; [eauto|].
  destruct (Hbody a s Hs) as (s1 & -> & Hs1). cbn [bind]. apply IH, Hs1.
Qed.

Lemma RGBA_At_done (p : RGBA) (x y : Z) :
  wfRGBA p -> exists c, RGBA_At p x y = Done c.
Proof.
  intros (Hx & Hy & Hs & Hlen). unfold RGBA_At.
  destruct (PtIn x y (Rect p)) eqn:E; cbn [negb]; [|eauto].
  unfold PtIn in E. rewrite !andb_true_iff in E.
  destruct E as [[[E1 E2] E3] E4].
  apply Z.leb_le in E1, E3. apply Z.ltb_lt in E2, E4.
  unfold Dx, Dy in *.
  destruct (offset_bound 4 (Stride p) (MaxX (Rect p) - MinX (Rect p))
              (MaxY (Rect p) - MinY (Rect p)) (Z.of_nat (length (Pix p)))
              (x - MinX (Rect p)) (y - MinY (Rect p)))
    as [Hlo Hhi]; try lia.
  unfold PixOffset.
  destruct (index_done (Pix p)
              ((y - MinY (Rect p)) * Stride p + (x - MinX (Rect p)) * 4 + 3))
    as [a ->]; [lia|].
  destruct (index_done (Pix p)
              ((y - MinY (Rect p)) * Stride p + (x - MinX (Rect p)) * 4))
    as [r ->]; [lia|].
  destruct (index_done (Pix p)
              ((y - MinY (Rect p)) * Stride p + (x - MinX (Rect p)) * 4 + 1))
    as [g ->]; [lia|].
  destruct (index_done (Pix p)
              ((y - MinY (Rect p)) * Stride p + (x - MinX (Rect p)) * 4 + 2))
    as [b ->]; [lia|].
  cbn. eauto.
Qed.

Lemma At_done (src : Image) (x y : Z) :
  wfImage src -> exists c, At src x y = Done c.
Proof.
  destruct src as [p|b f]; cbn [At wfImage]; [apply RGBA_At_done|eauto].
Qed.

Lemma Alpha_SetOpaque_done (a : Alpha) (x y : Z) :
  wfAlpha a ->
  exists a', Alpha_SetOpaque a x y = Done a' /\ wfAlpha a'.
Proof.
  intros Hwf. pose proof Hwf as (Hx & Hy & Hs & Hlen). unfold Alpha_SetOpaque.
  destruct (PtIn x y (ARect a)) eqn:E; cbn [negb]; [|eauto].
  unfold PtIn in E. rewrite !andb_true_iff in E.
  destruct E as [[[E1 E2] E3] E4].
  apply Z.leb_le in E1, E3. apply Z.ltb_lt in E2, E4.
  unfold Dx, Dy in *.
  destruct (offset_bound 1 (AStride a) (MaxX (ARect a) - MinX (ARect a))
              (MaxY (ARect a) - MinY (ARect a)) (Z.of_nat (length (APix a)))
              (x - MinX (ARect a)) (y - MinY (ARect a)))
    as [Hlo Hhi]; try lia.
  unfold APixOffset. rewrite store_done by lia. cbn [bind].
  eexists. split; [reflexivity|].
  unfold wfAlpha, Dx, Dy. cbn [APix AStride ARect].
  rewrite length_update. lia.
Qed.

Lemma Mask_SetOpaque_done (m : Mask) (x y : Z) :
  wfMask m -> exists m', Mask_SetOpaque m x y = Done m' /\ wfMask m'.
Proof.
  destruct m as [a|b l]; cbn [Mask_SetOpaque wfMask]; intros Hwf.
  - destruct (Alpha_SetOpaque_done a x y Hwf) as (a' & -> & Hwf').
    cbn [bind]. eexists. split; [reflexivity|exact Hwf'].
  - eexists. split; [reflexivity|exact I].
Qed.

(** On well-formed images and masks the generic loop returns. *)
Lemma skinMaskColorGeneric_done (th : thresholds) (src : Image) (mask : Mask) :
  wfImage src -> wfMask mask ->
  exists res, skinMaskColorGeneric th src mask = Done res.
Proof.
  intros Hsrc Hmask. unfold skinMaskColorGeneric.
  destruct (foldM_done (fun s : Mask * Z => wfMask (fst s))
              (fun y s =>
                 foldM (fun x s => genericBody th src x y s)
                       (rangeIncl (MinX (Mask_Bounds mask))
                                  (MaxX (Mask_Bounds mask))) s))
    with (l := rangeIncl (MinY (Mask_Bounds mask)) (MaxY (Mask_Bounds mask)))
         (s := (mask, 0))
    as ([m' n] & -> & _); [|exact Hmask|cbn; eauto].
  intros y s Hs. apply foldM_done; [|exact Hs].
  intros x [m n] Hm. cbn [fst] in Hm. unfold genericBody.
  destruct (At_done src x y Hsrc) as [c ->]. cbn [bind].
  destruct (skin32 th (cR c) (cG c)); [|eauto].
  destruct (Mask_SetOpaque_done m x y Hm) as (m1 & -> & Hm1).
  cbn [bind]. eauto.
Qed.

(** On a well-formed source and mask of equal bounds the buffer walk
    returns. *)
Lemma skinMaskColorRGBA_done (src : RGBA) (mask : Alpha) :
  wfRGBA src -> wfAlpha mask -> Rect src = ARect mask ->
  exists res, skinMaskColorRGBA src mask = Done res.
Proof.
  intros (Hx & Hy & Hs & Hlen) (Hax & Hay & Has & Halen) Hrect.
  unfold skinMaskColorRGBA.
  replace (rect_eqb (Rect src) (ARect mask)) with true
    by (symmetry; apply rect_eqb_eq; exact Hrect).
  cbn [negb]. rewrite <- Hrect in *. rewrite !Z.sub_diag. cbn [Z.mul Z.add].
  set (n := Z.to_nat (Dx (Rect src) * Dy (Rect src))).
  assert (Hn : Z.of_nat n = Dx (Rect src) * Dy (Rect src)) by (unfold n; nia).
  destruct (forNe4_done (maskBody (Pix src))
              (fun k (s : Z * Z * list byte) =>
                 fst (fst s) = k - 1 /\ length (snd s) = length (APix mask))
              0 n (S (length (Pix src))) 0
              (-1, 0, APix mask))
    as ([[mp c] mpix] & Hrun & _).
  - destruct (Z.eq_dec (Dx (Rect src) * Dy (Rect src)) 0) as [E|E]; [lia|].
    pose proof (flat_bound 4 (Stride src) (Dx (Rect src)) (Dy (Rect src))
                  (Z.of_nat (length (Pix src)))
                  (Dx (Rect src) * Dy (Rect src) - 1)
                  ltac:(lia) Hx Hy Hs Hlen ltac:(nia)).
    lia.
  - lia.
  - intros k [[mp c] mpix] Hk [Hmp Hlenm]. cbn [fst snd] in Hmp, Hlenm.
    pose proof (flat_bound 4 (Stride src) (Dx (Rect src)) (Dy (Rect src))
                  (Z.of_nat (length (Pix src))) k
                  ltac:(lia) Hx Hy Hs Hlen ltac:(lia)).
    pose proof (flat_bound 1 (AStride mask) (Dx (Rect src)) (Dy (Rect src))
                  (Z.of_nat (length (APix mask))) k
                  ltac:(lia) Hax Hay Has Halen ltac:(lia)).
    unfold maskBody.
    destruct (index_done (Pix src) (0 + 4 * k + 1)) as [g ->]; [lia|].
    destruct (index_done (Pix src) (0 + 4 * k)) as [r ->]; [lia|].
    cbn [bind]. destruct (skin8 r g).
    + rewrite store_done by lia. cbn [bind]. eexists. split; [reflexivity|].
      cbn [fst snd]. rewrite length_update. lia.
    + eexists. split; [reflexivity|]. cbn [fst snd]. lia.
  - cbn [fst snd]. lia.
  - replace (0 + 4 * (0 + Z.of_nat n)) with (Dx (Rect src) * Dy (Rect src) * 4)
      in Hrun by lia.
    change (0 + 4 * 0) with 0 in Hrun. rewrite Hrun. cbn [bind]. eauto.
Qed.

Lemma blankAlpha_wf (r : Rectangle) : 0 <= Dx r -> 0 <= Dy r -> wfAlpha (blankAlpha r).
Proof.
  intros Hx Hy. unfold wfAlpha, blankAlpha. cbn [APix AStride ARect].
  rewrite repeat_length. nia.
Qed.

Lemma Bounds_wf (src : Image) :
  wfImage src -> 0 <= Dx (Bounds src) /\ 0 <= Dy (Bounds src).
Proof.
  destruct src as [p|b f]; cbn [wfImage Bounds]; [|auto].
  intros (Hx & Hy & _). auto.
Qed.

(** [SkinMask] returns on every well-formed source and mask. *)
Lemma SkinMask_done (th : thresholds) (src : Image) (mask : option Mask) :
  wfImage src -> (forall m, mask = Some m -> wfMask m) ->
  exists res, SkinMask th src mask = Done res.
Proof.
  intros Hsrc Hmask. unfold SkinMask.
  assert (Hm : exists m, wfMask m
                         /\ skinMaskColor th src mask
                            = skinMaskColor th src (Some m)).
  { destruct mask as [m0|]; [exists m0; split; [apply Hmask|]; reflexivity|].
    exists (MaskAlpha (blankAlpha (Bounds src))).
    split; [cbn [wfMask]; apply blankAlpha_wf; apply Bounds_wf, Hsrc|].
    apply skinMaskColor_nil; apply Bounds_wf, Hsrc. }
  destruct Hm as (m & Hm & ->). unfold skinMaskColor. cbn [bind].
  destruct (rect_eqb (Bounds src) (Mask_Bounds m)) eqn:E;
    [|apply skinMaskColorGeneric_done; assumption].
  destruct src as [p|b f]; [|apply skinMaskColorGeneric_done; assumption].
  destruct m as [a|b l]; [|apply skinMaskColorGeneric_done; assumption].
  apply rect_eqb_eq in E. cbn in E, Hsrc, Hm.
  destruct (skinMaskColorRGBA_done p a Hsrc Hm E) as [res ->].
  cbn [bind]. eauto.
Qed.

(** [Content] returns a score on every well-formed source. *)
Lemma Content_done (src : Image) (r : Rectangle) :
  wfImage src -> exists s, Content src r = Done s /\ 0 <= s <= 255.
Proof.
  intros Hsrc.
  assert (Hg : exists s, contentGeneric src r = Done s /\ 0 <= s <= 255).
  { unfold contentGeneric, histGeneric.
    destruct (foldM_done (fun _ : list Z => True)
                (fun y C =>
                   foldM (fun x C => contentGenericBody src x y C)
                         (rangeIncl (MinX r) (MaxX r)) C))
      with (l := rangeIncl (MinY r) (MaxY r)) (s := repeat 0 (256 * 3))
      as (C & -> & _); [|exact I|].
    - intros y C _. apply foldM_done; [|exact I].
      intros x C' _. unfold contentGenericBody.
      destruct (At_done src x y Hsrc) as [c ->]. cbn [bind]. eauto.
    - cbn [bind]. eexists. split; [reflexivity|apply score_range]. }
  unfold Content. destruct (rect_eqb (Bounds src) r); [|exact Hg].
  destruct src as [p|b f]; [|exact Hg].
  cbn [wfImage] in Hsrc. destruct Hsrc as (Hx & Hy & Hs & Hlen).
  unfold contentRGBA, histRGBA. rewrite !Z.sub_diag. cbn [Z.mul Z.add].
  set (n := Z.to_nat (Dx (Rect p) * Dy (Rect p))).
  assert (Hn : Z.of_nat n = Dx (Rect p) * Dy (Rect p)) by (unfold n; nia).
  destruct (forNe4_done (contentBody (Pix p))
              (fun _ (_ : list Z) => True) 0 n (S (length (Pix p))) 0
              (repeat 0 256))
    as (C & Hrun & _).
  - destruct (Z.eq_dec (Dx (Rect p) * Dy (Rect p)) 0) as [E|E]; [lia|].
    pose proof (flat_bound 4 (Stride p) (Dx (Rect p)) (Dy (Rect p))
                  (Z.of_nat (length (Pix p)))
                  (Dx (Rect p) * Dy (Rect p) - 1)
                  ltac:(lia) Hx Hy Hs Hlen ltac:(nia)).
    lia.
  - lia.
  - intros k C Hk _.
    pose proof (flat_bound 4 (Stride p) (Dx (Rect p)) (Dy (Rect p))
                  (Z.of_nat (length (Pix p))) k
                  ltac:(lia) Hx Hy Hs Hlen ltac:(lia)).
    unfold contentBody.
    destruct (index_done (Pix p) (0 + 4 * k)) as [r0 ->]; [lia|].
    destruct (index_done (Pix p) (0 + 4 * k + 1)) as [g0 ->]; [lia|].
    destruct (index_done (Pix p) (0 + 4 * k + 2)) as [b0 ->]; [lia|].
    cbn [bind]. eauto.
  - exact I.
  - replace (0 + 4 * (0 + Z.of_nat n)) with (Dx (Rect p) * Dy (Rect p) * 4)
      in Hrun by lia.
    change (0 + 4 * 0) with 0 in Hrun. rewrite Hrun. cbn [bind].
    eexists. split; [reflexivity|apply score_range].
Qed.

(** * Single pixels *)

Lemma index_app {A : Type} (pre l : list A) (j : Z) :
  0 <= j -> index (pre ++ l) (Z.of_nat (length pre) + j) = index l j.
Proof.
  intros Hj. unfold index.
  destruct (Z.ltb_spec (Z.of_nat (length pre) + j) 0); [lia|].
  destruct (Z.ltb_spec j 0); [lia|].
  rewrite nth_error_app2 by lia.
  replace (Z.to_nat (Z.of_nat (length pre) + j) - length pre)%nat
    with (Z.to_nat j) by lia.
  reflexivity.
Qed.

Lemma bucketRGBA_sum (r g b : byte) :
  bucketRGBA r g b = ((u8 r + u8 g + u8 b) mod 256) / 3.
Proof.
  unfold bucketRGBA, add8, wrap8. rewrite Zplus_mod_idemp_l. reflexivity.
Qed.

Lemma skin32_green_zero (th : thresholds) (r : Z) :
  0 < minR th -> skin32 th r 0 = false.
Proof.
  intros Hmin. unfold skin32.
  destruct (Z.ltb_spec r (minR th)); [reflexivity|].
  destruct (_ || _); [reflexivity|].
  rewrite fge_fdiv_zero by lia. reflexivity.
Qed.

Lemma skin8_green_zero (r : byte) : skin8 r x00 = false.
Proof.
  destruct (skin8 r x00) eqn:E; [|reflexivity].
  apply skin8_spec in E. change (u8 x00) with 0 in E. lia.
Qed.

(** [skinMaskColorRGBA] on a single pixel is the [uint8] test of its red and
    green bytes; blue and alpha are not read. *)
Lemma skinMaskColorRGBA_1x1 (r g b a : byte) :
  skinMaskColorRGBA (imageOf 1 1 [r; g; b; a]) (blankAlpha (mkRect 0 0 1 1))
  = Done (mkAlpha [if skin8 r g then xff else x00] 1 (mkRect 0 0 1 1),
          FFin (if skin8 r g then 1 else 0)).
Proof.
  cbv -[skin8]. destruct (skin8 r g); reflexivity.
Qed.

(** Whatever the thresholds of the generic loop are, a color they accept
    is counted four times under a 1x1 mask laid over a 2x2 image of it. *)
Lemma generic_cover_four (th : thresholds) (r g b a : byte) :
  skin32 th (widen r) (widen g) = true ->
  skinMaskColorGeneric th
    (ImgRGBA (imageOf 2 2 ([r; g; b; a] ++ [r; g; b; a]
                           ++ [r; g; b; a] ++ [r; g; b; a])))
    (MaskAlpha (blankAlpha (mkRect 0 0 1 1)))
  = Done (MaskAlpha (mkAlpha [xff] 1 (mkRect 0 0 1 1)), FFin 4).
Proof.
  intros H. cbv -[skin32 widen]. rewrite !H. reflexivity.
Qed.

(** * The claims *)

(** Closed statements about concrete images are settled by running the
    embedding. *)
Ltac run := cbv zeta; repeat split; vm_compute; reflexivity.

(** C1. Path equivalence of the mask engine: on a packed RGBA source and a
    fresh mask of the same bounds the generic loop and [skinMaskColorRGBA]
    should give the same mask and the same coverage. The code departs from
    it: on the 1x1 image whose pixel has R = 80 and G = 255 the [uint8]
    difference [r-g] wraps to 81, so [skinMaskColorRGBA] marks the pixel and
    returns coverage 1, while the generic loop leaves the mask clear and
    returns coverage 0. *)
Theorem mask_paths_disagree :
  let src := imageOf 1 1 (px 80 255 0 255) in
  let mask := blankAlpha (Rect src) in
  skinMaskColorRGBA src mask
  = Done (mkAlpha [xff] 1 (mkRect 0 0 1 1), FFin 1)
  /\ skinMaskColorGeneric thresholds16 (ImgRGBA src) (MaskAlpha mask)
     = Done (MaskAlpha (mkAlpha [x00] 1 (mkRect 0 0 1 1)), FFin 0).
Proof. run. Qed.

(** C2. Path equivalence of the content engine: where both apply, the
    generic loop of [Content] and [contentRGBA] should return the same
    score. The code departs from it: on a 13x10 image of 65 white pixels and
    65 pixels of (84,84,84), [contentRGBA] sums the channels in [uint8], so
    white lands in bucket 84 with the gray and the score is 1, while the
    generic loop fills buckets 84 and 255 and returns 2. *)
Theorem content_paths_disagree :
  let src := imageOf 13 10 (concat (repeat (px 255 255 255 255) 65)
                            ++ concat (repeat (px 84 84 84 255) 65)) in
  Content (ImgRGBA src) (Rect src) = contentRGBA src
  /\ contentRGBA src = Done 1
  /\ contentGeneric (ImgRGBA src) (Rect src) = Done 2.
Proof. run. Qed.

(** The inclusive bounds of the generic loop alone also separate the two
    paths: on a 64x1 black image it samples 66 points outside the image. *)
Lemma inclusive_bounds_split_content :
  let src := uniformImage 64 1 0 0 0 255 in
  contentRGBA src = Done 0
  /\ contentGeneric (ImgRGBA src) (Rect src) = Done 1.
Proof. run. Qed.

(** C3. Coverage bound: the coverage returned by the mask engine should lie
    in [0,1]. The code departs from it: for a 2x2 source of skin pixels and
    a 1x1 alpha mask at the origin, the generic loop runs [x] and [y] up to
    and including [Max], counts four pixels and returns 4/1. *)
Theorem generic_cover_above_one :
  SkinMask thresholds16 (ImgRGBA (uniformImage 2 2 150 110 60 255))
           (Some (MaskAlpha (blankAlpha (mkRect 0 0 1 1))))
  = Done (MaskAlpha (mkAlpha [xff] 1 (mkRect 0 0 1 1)), FFin 4).
Proof. run. Qed.

(** C4. The skin rule: a pixel should be classified as skin exactly when
    R >= 75, 20 <= R - G <= 90 and R / G < 2.5. The code departs from it in
    [skinMaskColorRGBA]: for R = 80, G = 255 the rule fails (R - G = -175)
    but the [uint8] difference is 81 and the pixel is classified as skin. *)
Theorem skin8_wraps_delta :
  skin8 (b8 80) (b8 255) = true
  /\ sub8 (u8 (b8 80)) (u8 (b8 255)) = 81
  /\ ~ skinRule 80 255
  /\ forall th,
       SkinMask th (ImgRGBA (imageOf 1 1 (px 80 255 0 255))) None
       = Done (MaskAlpha (mkAlpha [xff] 1 (mkRect 0 0 1 1)), FFin 1).
Proof.
  split; [run|]. split; [run|].
  split; [rewrite skinRule_iff by lia; lia|].
  intros th. run.
Qed.

(** C5. The 2x2 scenario: with pixels (200,100,50), (150,110,60),
    (80,10,10) and (30,20,10), whatever their alpha, the mask engine marks
    the second pixel only and returns coverage 1/4 = 0.25. *)
Theorem scenario_quarter_cover :
  forall (th : thresholds) (a1 a2 a3 a4 : byte),
    SkinMask th (ImgRGBA (scenario a1 a2 a3 a4)) None
    = Done (MaskAlpha (mkAlpha [x00; xff; x00; x00] 2 (mkRect 0 0 2 2)),
            FFin (1 # 4))
    /\ (1 # 4 == 0.25)%Q.
Proof.
  intros th a1 a2 a3 a4. split; [run|reflexivity].
Qed.

(** C6. The score is in [0,255] for every image and region: the call ends
    with a score in that range or with an index panic. A single-color image
    should leave exactly one occupied histogram bucket and score 0 or 1 by
    comparing the number of its pixels with 64. The code departs from that
    in two ways.
    - The buckets are [byte] counters. On a 16x16 image of any one color the
      256 pixels wrap the counter of their bucket back to 0: no bucket is
      occupied and the score is 0 although 256 pixels, more than 64, fell
      into the bucket. The 15x17 white image, one pixel fewer, scores 1.
    - The generic loop runs to [<= Max]. On a 1x65 white image scored over
      the rectangle (0,0)-(1,64), which holds 64 pixels, it samples the 65
      points of column 0 and the 65 points of column 1, which lie outside
      the image and read as black: buckets 255 and 0 hold 65 each and the
      score is 2. *)
Theorem uniform_score_diverges :
  (forall src r, ok_or_index (fun s => 0 <= s <= 255) (Content src r))
  /\
  (forall r g b a : Z,
      (exists C, histRGBA (uniformImage 16 16 r g b a) = Done C
                 /\ occupied C = 0)
      /\ Content (ImgRGBA (uniformImage 16 16 r g b a)) (mkRect 0 0 16 16)
         = Done 0)
  /\
  Content (ImgRGBA (uniformImage 15 17 255 255 255 255)) (mkRect 0 0 15 17)
  = Done 1
  /\
  (exists C, histGeneric (ImgRGBA (uniformImage 1 65 255 255 255 255))
                         (mkRect 0 0 1 64) = Done C
             /\ nth 255 C 0 = 65 /\ nth 0 C 0 = 65 /\ occupied C = 2)
  /\
  Content (ImgRGBA (uniformImage 1 65 255 255 255 255)) (mkRect 0 0 1 64)
  = Done 2.
Proof.
  split; [exact Content_ok|].
  split.
  { intros r g b a.
    pose proof (bucketRGBA_range (b8 r) (b8 g) (b8 b)) as Hi.
    assert (Hhist : histRGBA (uniformImage 16 16 r g b a)
                    = Done (update (repeat 0 256)
                                   (Z.to_nat (bucketRGBA (b8 r) (b8 g) (b8 b)))
                                   0)).
    { apply (histRGBA_uniform (uniformImage 16 16 r g b a)
                              (b8 r) (b8 g) (b8 b) (b8 a));
        [apply Z.leb_le; reflexivity | apply Z.leb_le; reflexivity
        | reflexivity]. }
    split.
    - eexists. split; [exact Hhist|].
      rewrite occupied_update_repeat0 by lia. reflexivity.
    - unfold Content.
      change (rect_eqb (Bounds (ImgRGBA (uniformImage 16 16 r g b a)))
                       (mkRect 0 0 16 16)) with true.
      cbv iota. unfold contentRGBA. rewrite Hhist. cbn [bind].
      rewrite score_min, countAbove_update_repeat0 by lia. reflexivity. }
  split; [run|].
  split; [|run].
  eexists. split; [vm_compute; reflexivity|]. run.
Qed.

(** C7. Whenever the source is a packed RGBA buffer and the mask an alpha
    grid with other bounds, [SkinMask] runs the generic loop; the panic of
    [skinMaskColorRGBA] on differing bounds, which the function does raise
    when called so, is reached by no call of [SkinMask]. *)
Theorem subimage_panic_unreachable :
  (forall th src mask, SkinMask th src mask <> Panicked SubimageMask)
  /\
  (forall th p a,
      rect_eqb (Rect p) (ARect a) = false ->
      SkinMask th (ImgRGBA p) (Some (MaskAlpha a))
      = skinMaskColorGeneric th (ImgRGBA p) (MaskAlpha a)
      /\ skinMaskColorRGBA p a = Panicked SubimageMask).
Proof.
  split.
  - intros th src mask H. unfold SkinMask in H.
    destruct (skinMaskColor_ok th src mask) as [Hok|Hneg];
      rewrite H in *; [exact Hok|discriminate].
  - intros th p a E.
    unfold SkinMask, skinMaskColor, skinMaskColorRGBA.
    cbn [bind Bounds Mask_Bounds]. rewrite E. split; reflexivity.
Qed.

Lemma subimage_panic_unreachable_witness :
  SkinMask thresholds16 (ImgRGBA (uniformImage 2 2 150 110 60 255))
           (Some (MaskAlpha (blankAlpha (mkRect 0 0 1 1))))
  = skinMaskColorGeneric thresholds16
      (ImgRGBA (uniformImage 2 2 150 110 60 255))
      (MaskAlpha (blankAlpha (mkRect 0 0 1 1)))
  /\ skinMaskColorRGBA (uniformImage 2 2 150 110 60 255)
                       (blankAlpha (mkRect 0 0 1 1))
     = Panicked SubimageMask.
Proof.
  apply (proj2 subimage_panic_unreachable thresholds16
               (uniformImage 2 2 150 110 60 255) (blankAlpha (mkRect 0 0 1 1))).
  reflexivity.
Defined.

(** C8. A pixel whose green channel is 0 is never classified as skin, in
    either loop: the quotient [float32(r)/float32(0)] is an infinity, not a
    fault, and the engine returns with the pixel unmarked. *)
Theorem green_zero_not_skin :
  (forall r : byte, skin8 r x00 = false)
  /\ (forall r : Z, skin32 thresholds16 r 0 = false)
  /\ (forall r : positive, fdiv (Z.pos r) 0 = FPosInf)
  /\ (forall th (r b a : byte),
         SkinMask th (ImgRGBA (imageOf 1 1 [r; x00; b; a])) None
         = Done (MaskAlpha (mkAlpha [x00] 1 (mkRect 0 0 1 1)), FFin 0))
  /\ (forall r b a : byte,
         skinMaskColorGeneric thresholds16
           (ImgRGBA (imageOf 1 1 [r; x00; b; a]))
           (MaskAlpha (blankAlpha (mkRect 0 0 1 1)))
         = Done (MaskAlpha (mkAlpha [x00] 1 (mkRect 0 0 1 1)), FFin 0)).
Proof.
  split; [exact skin8_green_zero|].
  split; [intros r; apply skin32_green_zero; reflexivity|].
  split; [intros r; reflexivity|].
  split.
  - intros th r b a. unfold SkinMask.
    rewrite skinMaskColor_nil by (cbn; lia). unfold skinMaskColor.
    cbn [bind]. change (rect_eqb _ _) with true. cbv iota beta.
    change (blankAlpha (Bounds (ImgRGBA (imageOf 1 1 [r; x00; b; a]))))
      with (blankAlpha (mkRect 0 0 1 1)).
    rewrite skinMaskColorRGBA_1x1, skin8_green_zero. reflexivity.
  - intros r b a. destruct r; run.
Qed.

(** C9. Mask mutation scope: no source pixel outside the mask's bounds
    should be read and no mask cell outside them written. The code departs
    from it: with a 1x1 mask at the origin over a 2x2 source, two sources
    that agree on the mask's only pixel (0,0) and differ at (1,1) get
    different coverage, and a mask that is not an alpha grid is asked to
    set (1,1). *)
Theorem generic_reads_outside_mask :
  let black := px 0 0 0 255 in
  let src1 := imageOf 2 2 (black ++ black ++ black ++ black) in
  let src2 := imageOf 2 2 (black ++ black ++ black ++ px 150 110 60 255) in
  let bounds := mkRect 0 0 1 1 in
  (forall x y, if PtIn x y bounds
               then RGBA_At src1 x y = RGBA_At src2 x y else True)
  /\ PtIn 1 1 bounds = false
  /\ SkinMask thresholds16 (ImgRGBA src1) (Some (MaskAlpha (blankAlpha bounds)))
     = Done (MaskAlpha (mkAlpha [x00] 1 bounds), FFin 0)
  /\ SkinMask thresholds16 (ImgRGBA src2) (Some (MaskAlpha (blankAlpha bounds)))
     = Done (MaskAlpha (mkAlpha [x00] 1 bounds), FFin 1)
  /\ SkinMask thresholds16 (ImgRGBA src2) (Some (MaskOther bounds []))
     = Done (MaskOther bounds [(1, 1)], FFin 1).
Proof.
  cbv zeta. split; [|run].
  intros x y. destruct (PtIn x y (mkRect 0 0 1 1)) eqn:H; [|exact I].
  unfold PtIn in H. cbn in H.
  assert (x = 0 /\ y = 0) as [-> ->] by lia.
  run.
Qed.

(** C10. In [contentRGBA] the bucket of a pixel is
    ((R + G + B) mod 256) / 3, the channel bytes being summed in [uint8];
    a white pixel (255,255,255) increments bucket 84, not bucket 255. *)
Theorem bucketRGBA_wraps :
  (forall r g b : byte,
      bucketRGBA r g b = ((u8 r + u8 g + u8 b) mod 256) / 3)
  /\ (forall (pre post : list byte) (r g b a : byte) (C : list Z),
         contentBody (pre ++ [r; g; b; a] ++ post) (Z.of_nat (length pre)) C
         = Done (bump C (((u8 r + u8 g + u8 b) mod 256) / 3)))
  /\ bucketRGBA xff xff xff = 84
  /\ (forall a : byte,
         exists C, histRGBA (imageOf 1 1 [xff; xff; xff; a]) = Done C
                   /\ nth 84 C 0 = 1 /\ nth 255 C 0 = 0).
Proof.
  split; [exact bucketRGBA_sum|].
  split.
  { intros pre post r g b a C. unfold contentBody.
    rewrite <- (Z.add_0_r (Z.of_nat (length pre))) at 1.
    rewrite !index_app by lia.
    change (index ([r; g; b; a] ++ post) 0) with (Done r).
    change (index ([r; g; b; a] ++ post) 1) with (Done g).
    change (index ([r; g; b; a] ++ post) 2) with (Done b).
    cbn [bind]. rewrite bucketRGBA_sum. reflexivity. }
  split; [run|].
  intros a. eexists. split; [run|]. run.
Qed.

(** * Further properties of the buffer walks *)

(** Hypotheses on concrete inputs are closed by evaluation. *)
Ltac by_eval := repeat split; apply Z.leb_le; vm_compute; reflexivity.

Lemma index_nth {A : Type} (l : list A) (i : Z) (d : A) :
  0 <= i < Z.of_nat (length l) -> index l i = Done (nth (Z.to_nat i) l d).
Proof.
  intros Hi. unfold index. destruct (Z.ltb_spec i 0); [lia|].
  rewrite (nth_error_nth' l d) by lia. reflexivity.
Qed.

Lemma countSkin_S (pix : list byte) (n : nat) :
  countSkin pix (S n)
  = countSkin pix n + (if skinAt pix n then 1 else 0).
Proof.
  unfold countSkin. rewrite seq_S, filter_app, length_app. cbn [filter Nat.add].
  destruct (skinAt pix n); cbn [length]; lia.
Qed.

Lemma countSkin_bounds (pix : list byte) (n : nat) :
  0 <= countSkin pix n <= Z.of_nat n.
Proof.
  induction n as [|n IH]; [cbn; lia|].
  rewrite countSkin_S. destruct (skinAt pix n); lia.
Qed.

Lemma countBucket_S (pix : list byte) (n : nat) (i : Z) :
  countBucket pix (S n) i
  = countBucket pix n i + (if bucketAt pix n =? i then 1 else 0).
Proof.
  unfold countBucket. rewrite seq_S, filter_app, length_app.
  cbn [filter Nat.add].
  destruct (bucketAt pix n =? i); cbn [length]; lia.
Qed.

(** One more pixel: the invariant of the walk after marking, or not, the
    mask byte [k]. *)
Lemma maskInv_step (pix mpix0 : list byte) (k c : Z) (mpix : list byte) :
  0 <= k -> k < Z.of_nat (length mpix0) ->
  maskInv pix mpix0 k (k - 1, c, mpix) ->
  maskInv pix mpix0 (k + 1)
          (k, (if skinAt pix (Z.to_nat k) then c + 1 else c),
           if skinAt pix (Z.to_nat k) then update mpix (Z.to_nat k) xff
           else mpix).
Proof.
  intros Hk Hm (_ & Hlen & Hc & Hnth).
  assert (Hk1 : Z.to_nat (k + 1) = S (Z.to_nat k)) by lia.
  assert (Hlt : forall i, i <> Z.to_nat k ->
                          (i <? S (Z.to_nat k))%nat = (i <? Z.to_nat k)%nat).
  { intros i Hi.
    destruct (Nat.ltb_spec i (Z.to_nat k)), (Nat.ltb_spec i (S (Z.to_nat k)));
      try reflexivity; lia. }
  unfold maskInv. rewrite Hk1, countSkin_S.
  destruct (skinAt pix (Z.to_nat k)) eqn:Eskin.
  - rewrite length_update. repeat split; try lia.
    intros i. destruct (Nat.eq_dec i (Z.to_nat k)) as [->|Hne].
    + rewrite nth_update_same by lia.
      replace (Z.to_nat k <? S (Z.to_nat k))%nat with true
        by (symmetry; apply Nat.ltb_lt; lia).
      rewrite Eskin. reflexivity.
    + rewrite nth_update_other by lia. rewrite Hnth, Hlt by exact Hne.
      reflexivity.
  - repeat split; try lia.
    intros i. rewrite Hnth.
    destruct (Nat.eq_dec i (Z.to_nat k)) as [->|Hne].
    + rewrite Eskin, !andb_false_r. reflexivity.
    + rewrite Hlt by exact Hne. reflexivity.
Qed.

Lemma maskBody_step (pix mpix0 : list byte) (k : Z) (s : Z * Z * list byte) :
  0 <= k -> 4 * k + 4 <= Z.of_nat (length pix) ->
  k < Z.of_nat (length mpix0) ->
  maskInv pix mpix0 k s ->
  exists s', maskBody pix (0 + 4 * k) s = Done s'
             /\ maskInv pix mpix0 (k + 1) s'.
Proof.
  intros Hk Hpix Hm Hinv. destruct s as [[mp c] mpix].
  assert (Hmp : mp = k - 1) by (destruct Hinv as [H _]; exact H). subst mp.
  pose proof (maskInv_step pix mpix0 k c mpix Hk Hm Hinv) as Hstep.
  assert (Hlen : length mpix = length mpix0)
    by (destruct Hinv as (_ & H & _); exact H).
  unfold maskBody.
  rewrite (index_nth pix (0 + 4 * k + 1) x00) by lia.
  rewrite (index_nth pix (0 + 4 * k) x00) by lia.
  cbn [bind].
  replace (Z.to_nat (0 + 4 * k + 1)) with (4 * Z.to_nat k + 1)%nat by lia.
  replace (Z.to_nat (0 + 4 * k)) with (4 * Z.to_nat k)%nat by lia.
  fold (greenAt pix (Z.to_nat k)). fold (redAt pix (Z.to_nat k)).
  fold (skinAt pix (Z.to_nat k)).
  replace (k - 1 + 1) with k by lia.
  destruct (skinAt pix (Z.to_nat k)).
  - rewrite store_done by lia. cbn [bind]. eauto.
  - eauto.
Qed.

(** The walk of [skinMaskColorRGBA] from entry to exit. *)
Lemma skinMaskColorRGBA_walk (src : RGBA) (mask : Alpha) :
  wfRGBA src -> wfAlpha mask -> Rect src = ARect mask ->
  exists mpix,
    skinMaskColorRGBA src mask
    = Done (mkAlpha mpix (AStride mask) (ARect mask),
            fdiv (countSkin (Pix src)
                            (Z.to_nat (Dx (Rect src) * Dy (Rect src))))
                 (Dy (Rect src) * Dx (Rect src)))
    /\ length mpix = length (APix mask)
    /\ forall k,
         nth k mpix x00
         = if (k <? Z.to_nat (Dx (Rect src) * Dy (Rect src)))%nat
              && skinAt (Pix src) k
           then xff else nth k (APix mask) x00.
Proof.
  intros (Hx & Hy & Hs & Hlen) (Hax & Hay & Has & Halen) Hrect.
  unfold skinMaskColorRGBA.
  replace (rect_eqb (Rect src) (ARect mask)) with true
    by (symmetry; apply rect_eqb_eq; exact Hrect).
  cbn [negb]. rewrite <- Hrect in *. rewrite !Z.sub_diag. cbn [Z.mul Z.add].
  set (n := Z.to_nat (Dx (Rect src) * Dy (Rect src))).
  assert (Hn : Z.of_nat n = Dx (Rect src) * Dy (Rect src)) by (unfold n; nia).
  destruct (forNe4_done (maskBody (Pix src))
              (maskInv (Pix src) (APix mask)) 0 n (S (length (Pix src))) 0
              (-1, 0, APix mask))
    as ([[mp c] mpix] & Hrun & Hinv).
  - destruct (Z.eq_dec (Dx (Rect src) * Dy (Rect src)) 0) as [E|E]; [lia|].
    pose proof (flat_bound 4 (Stride src) (Dx (Rect src)) (Dy (Rect src))
                  (Z.of_nat (length (Pix src)))
                  (Dx (Rect src) * Dy (Rect src) - 1)
                  ltac:(lia) Hx Hy Hs Hlen ltac:(nia)).
    lia.
  - lia.
  - intros k s Hk Hinv.
    pose proof (flat_bound 4 (Stride src) (Dx (Rect src)) (Dy (Rect src))
                  (Z.of_nat (length (Pix src))) k
                  ltac:(lia) Hx Hy Hs Hlen ltac:(lia)).
    pose proof (flat_bound 1 (AStride mask) (Dx (Rect src)) (Dy (Rect src))
                  (Z.of_nat (length (APix mask))) k
                  ltac:(lia) Hax Hay Has Halen ltac:(lia)).
    apply maskBody_step; try lia. exact Hinv.
  - unfold maskInv. repeat split; reflexivity.
  - replace (0 + 4 * (0 + Z.of_nat n)) with (Dx (Rect src) * Dy (Rect src) * 4)
      in Hrun by lia.
    change (0 + 4 * 0) with 0 in Hrun. rewrite Hrun. cbn [bind].
    destruct Hinv as (_ & Hl & Hc & Hnth).
    replace (Z.to_nat (0 + Z.of_nat n)) with n in Hc, Hnth by lia.
    exists mpix. subst c. repeat split; [exact Hl|exact Hnth].
Qed.

Lemma nth_bump (C : list Z) (b : Z) (i : nat) :
  0 <= b < Z.of_nat (length C) ->
  nth i (bump C b) 0
  = if Z.of_nat i =? b then (nth i C 0 + 1) mod 256 else nth i C 0.
Proof.
  intros Hb. unfold bump, add8, wrap8.
  destruct (Z.eqb_spec (Z.of_nat i) b) as [E|E].
  - replace (Z.to_nat b) with i by lia. apply nth_update_same. lia.
  - apply nth_update_other. lia.
Qed.

Lemma length_bump (C : list Z) (b : Z) : length (bump C b) = length C.
Proof. unfold bump. apply length_update. Qed.

Lemma bucketRGBA_le_85 (r g b : byte) : 0 <= bucketRGBA r g b <= 85.
Proof.
  unfold bucketRGBA, add8, wrap8.
  pose proof (Z.mod_pos_bound ((u8 r + u8 g) mod 256 + u8 b) 256 ltac:(lia)).
  split; [apply Z.div_pos; lia|].
  apply Z.div_le_upper_bound; lia.
Qed.

Lemma countBucket_high (pix : list byte) (n : nat) (i : Z) :
  85 < i -> countBucket pix n i = 0.
Proof.
  intros Hi. induction n as [|n IH]; [reflexivity|].
  rewrite countBucket_S, IH. unfold bucketAt.
  pose proof (bucketRGBA_le_85 (redAt pix n) (greenAt pix n) (blueAt pix n)).
  destruct (Z.eqb_spec (bucketRGBA (redAt pix n) (greenAt pix n) (blueAt pix n))
                       i); lia.
Qed.

Lemma contentBody_step (pix : list byte) (k : Z) (C : list Z) :
  0 <= k -> 4 * k + 4 <= Z.of_nat (length pix) ->
  histInv pix k C ->
  exists C', contentBody pix (0 + 4 * k) C = Done C'
             /\ histInv pix (k + 1) C'.
Proof.
  intros Hk Hpix [Hlen Hnth]. unfold contentBody.
  rewrite (index_nth pix (0 + 4 * k) x00) by lia.
  rewrite (index_nth pix (0 + 4 * k + 1) x00) by lia.
  rewrite (index_nth pix (0 + 4 * k + 2) x00) by lia.
  cbn [bind].
  replace (Z.to_nat (0 + 4 * k)) with (4 * Z.to_nat k)%nat by lia.
  replace (Z.to_nat (0 + 4 * k + 1)) with (4 * Z.to_nat k + 1)%nat by lia.
  replace (Z.to_nat (0 + 4 * k + 2)) with (4 * Z.to_nat k + 2)%nat by lia.
  fold (redAt pix (Z.to_nat k)). fold (greenAt pix (Z.to_nat k)).
  fold (blueAt pix (Z.to_nat k)). fold (bucketAt pix (Z.to_nat k)).
  eexists. split; [reflexivity|].
  assert (Hb : 0 <= bucketAt pix (Z.to_nat k) <= 85)
    by apply bucketRGBA_le_85.
  unfold histInv. rewrite length_bump. split; [exact Hlen|].
  intros i. rewrite nth_bump by lia.
  replace (Z.to_nat (k + 1)) with (S (Z.to_nat k)) by lia.
  rewrite countBucket_S, Hnth, (Z.eqb_sym (Z.of_nat i)).
  destruct (bucketAt pix (Z.to_nat k) =? Z.of_nat i).
  - rewrite Zplus_mod_idemp_l. reflexivity.
  - rewrite Z.add_0_r. reflexivity.
Qed.

(** The walk of [contentRGBA] from entry to exit. *)
Lemma histRGBA_walk (p : RGBA) :
  wfRGBA p ->
  exists C,
    histRGBA p = Done C
    /\ length C = 256%nat
    /\ forall i,
         nth i C 0
         = countBucket (Pix p) (Z.to_nat (Dx (Rect p) * Dy (Rect p)))
                       (Z.of_nat i) mod 256.
Proof.
  intros (Hx & Hy & Hs & Hlen). unfold histRGBA.
  rewrite !Z.sub_diag. cbn [Z.mul Z.add].
  set (n := Z.to_nat (Dx (Rect p) * Dy (Rect p))).
  assert (Hn : Z.of_nat n = Dx (Rect p) * Dy (Rect p)) by (unfold n; nia).
  destruct (forNe4_done (contentBody (Pix p)) (histInv (Pix p)) 0 n
              (S (length (Pix p))) 0 (repeat 0 256))
    as (C & Hrun & Hinv).
  - destruct (Z.eq_dec (Dx (Rect p) * Dy (Rect p)) 0) as [E|E]; [lia|].
    pose proof (flat_bound 4 (Stride p) (Dx (Rect p)) (Dy (Rect p))
                  (Z.of_nat (length (Pix p)))
                  (Dx (Rect p) * Dy (Rect p) - 1)
                  ltac:(lia) Hx Hy Hs Hlen ltac:(nia)).
    lia.
  - lia.
  - intros k C Hk Hinv.
    pose proof (flat_bound 4 (Stride p) (Dx (Rect p)) (Dy (Rect p))
                  (Z.of_nat (length (Pix p))) k
                  ltac:(lia) Hx Hy Hs Hlen ltac:(lia)).
    apply contentBody_step; try lia. exact Hinv.
  - split; [apply repeat_length|]. intros i. rewrite nth_repeat0. reflexivity.
  - replace (0 + 4 * (0 + Z.of_nat n)) with (Dx (Rect p) * Dy (Rect p) * 4)
      in Hrun by lia.
    change (0 + 4 * 0) with 0 in Hrun.
    destruct Hinv as [Hl Hnth].
    replace (Z.to_nat (0 + Z.of_nat n)) with n in Hnth by lia.
    exists C. repeat split; assumption.
Qed.

Lemma countAbove_zero_tail (b : nat) (C : list Z) :
  (forall i, (b <= i)%nat -> nth i C 0 = 0) -> countAbove C <= Z.of_nat b.
Proof.
  revert C. induction b as [|b IH]; intros C H.
  - induction C as [|v C IHC]; [cbn; lia|].
    rewrite countAbove_cons.
    pose proof (H 0%nat ltac:(lia)) as H0. cbn in H0. subst v.
    cbn [Z.of_nat] in *. change (threshold <? 0) with false. cbn iota.
    apply IHC. intros i Hi. apply (H (S i)). lia.
  - destruct C as [|v C]; [cbn; lia|].
    rewrite countAbove_cons.
    assert (countAbove C <= Z.of_nat b).
    { apply IH. intros i Hi. apply (H (S i)). lia. }
    destruct (threshold <? v); lia.
Qed.

(** X9. On a well-formed packed RGBA image scored over its own bounds,
    [Content] returns at most 86: the [uint8] channel sum divided by 3 is at
    most 85, so only buckets 0 to 85 are ever occupied. *)
Theorem Content_RGBA_at_most_86 (p : RGBA) :
  wfRGBA p ->
  exists s, Content (ImgRGBA p) (Rect p) = Done s /\ 0 <= s <= 86.
Proof.
  intros Hwf. destruct (histRGBA_walk p Hwf) as (C & Hrun & Hlen & Hnth).
  unfold Content.
  replace (rect_eqb (Bounds (ImgRGBA p)) (Rect p)) with true
    by (symmetry; apply rect_eqb_eq; reflexivity).
  unfold contentRGBA. rewrite Hrun. cbn [bind].
  eexists. split; [reflexivity|].
  rewrite score_min. pose proof (countAbove_bounds C).
  assert (countAbove C <= Z.of_nat 86).
  { apply countAbove_zero_tail. intros i Hi.
    rewrite Hnth, countBucket_high by lia. reflexivity. }
  lia.
Qed.

Lemma Content_RGBA_at_most_86_witness :
  exists s, Content (ImgRGBA demoSrc) (Rect demoSrc) = Done s /\ 0 <= s <= 86.
Proof. apply (Content_RGBA_at_most_86 demoSrc); by_eval. Defined.

Lemma rect_eqb_refl (r : Rectangle) : rect_eqb r r = true.
Proof. apply rect_eqb_eq. reflexivity. Qed.

(** X12. The buffer walks use neither the stride nor the position of the
    image: [skinMaskColorRGBA] and [contentRGBA] return the same mask bytes,
    coverage and score for any two layouts of the same buffers with the same
    area. A [SubImage], whose stride is wider than its rows, is therefore
    walked as if its rows were contiguous. *)
Theorem fast_paths_ignore_layout
  (pix mpix : list byte) (s1 s2 t1 t2 : Z) (r1 r2 : Rectangle) :
  Dx r1 * Dy r1 = Dx r2 * Dy r2 ->
  (res <- skinMaskColorRGBA (mkRGBA pix s1 r1) (mkAlpha mpix t1 r1) ;;
   Done (APix (fst res), snd res))
  = (res <- skinMaskColorRGBA (mkRGBA pix s2 r2) (mkAlpha mpix t2 r2) ;;
     Done (APix (fst res), snd res))
  /\ contentRGBA (mkRGBA pix s1 r1) = contentRGBA (mkRGBA pix s2 r2).
Proof.
  intros Harea. unfold skinMaskColorRGBA, contentRGBA, histRGBA.
  cbn [Pix Stride Rect APix AStride ARect].
  rewrite !rect_eqb_refl. cbn [negb]. rewrite !Z.sub_diag. cbn [Z.mul Z.add].
  rewrite (Z.mul_comm (Dy r1)), (Z.mul_comm (Dy r2)), Harea.
  split; [|reflexivity].
  destruct (forNe4 _ _ _ _ _) as [[[mp n] m]| |]; reflexivity.
Qed.

Lemma fast_paths_ignore_layout_witness :
  (res <- skinMaskColorRGBA (mkRGBA (Pix demoSrc) 8 (mkRect 0 0 2 2))
                            (mkAlpha (APix demoMask) 2 (mkRect 0 0 2 2)) ;;
   Done (APix (fst res), snd res))
  = (res <- skinMaskColorRGBA (mkRGBA (Pix demoSrc) 100 (mkRect 3 4 7 5))
                              (mkAlpha (APix demoMask) 9 (mkRect 3 4 7 5)) ;;
     Done (APix (fst res), snd res))
  /\ contentRGBA (mkRGBA (Pix demoSrc) 8 (mkRect 0 0 2 2))
     = contentRGBA (mkRGBA (Pix demoSrc) 100 (mkRect 3 4 7 5)).
Proof.
  apply (fast_paths_ignore_layout (Pix demoSrc) (APix demoMask) 8 100 2 9
           (mkRect 0 0 2 2) (mkRect 3 4 7 5)).
  reflexivity.
Defined.

(** X13. A packed RGBA image of area zero, whatever its buffer holds:
    [SkinMask] leaves a supplied alpha mask of the same bounds as it is and
    returns NaN as coverage (0/0); with a nil mask it does the same on a fresh
    mask, unless a side of the rectangle is negative, in which case
    [image.NewAlpha] panics; [Content] returns 0. *)
Theorem empty_image (th : thresholds) (p : RGBA) :
  Dx (Rect p) * Dy (Rect p) = 0 ->
  SkinMask th (ImgRGBA p) None
  = (if (Dx (Rect p) <? 0) || (Dy (Rect p) <? 0)
     then Panicked NegativeDimensions
     else Done (MaskAlpha (blankAlpha (Rect p)), FNaN))
  /\ (forall a, ARect a = Rect p ->
                SkinMask th (ImgRGBA p) (Some (MaskAlpha a))
                = Done (MaskAlpha a, FNaN))
  /\ Content (ImgRGBA p) (Rect p) = Done 0.
Proof.
  intros Harea.
  assert (Hfast : forall a, ARect a = Rect p ->
                            skinMaskColorRGBA p a = Done (a, FNaN)).
  { intros [ap at_ ar] Ha. cbn in Ha. subst ar. unfold skinMaskColorRGBA.
    cbn [APix AStride ARect]. rewrite rect_eqb_refl. cbn [negb].
    rewrite !Z.sub_diag, (Z.mul_comm (Dy (Rect p))), Harea. reflexivity. }
  assert (Hsome : forall a, ARect a = Rect p ->
                            SkinMask th (ImgRGBA p) (Some (MaskAlpha a))
                            = Done (MaskAlpha a, FNaN)).
  { intros a Ha. unfold SkinMask, skinMaskColor.
    cbn [bind Bounds Mask_Bounds].
    rewrite Ha, rect_eqb_refl, (Hfast a Ha). reflexivity. }
  split; [|split].
  - unfold SkinMask.
    destruct (Z.ltb_spec (Dx (Rect p)) 0) as [Hx|Hx];
      [apply skinMaskColor_nil_panics; cbn [Bounds]; lia|].
    destruct (Z.ltb_spec (Dy (Rect p)) 0) as [Hy|Hy];
      [apply skinMaskColor_nil_panics; cbn [Bounds]; lia|].
    rewrite skinMaskColor_nil by assumption. cbn [orb Bounds].
    apply (Hsome (blankAlpha (Rect p))). reflexivity.
  - exact Hsome.
  - unfold Content. cbn [Bounds]. rewrite rect_eqb_refl.
    unfold contentRGBA, histRGBA. rewrite !Z.sub_diag, Harea. reflexivity.
Qed.

Lemma empty_image_witness :
  (SkinMask thresholds16 (ImgRGBA (imageOf 0 3 [])) None
   = Done (MaskAlpha (blankAlpha (Rect (imageOf 0 3 []))), FNaN)
   /\ (forall a, ARect a = Rect (imageOf 0 3 []) ->
                 SkinMask thresholds16 (ImgRGBA (imageOf 0 3 []))
                          (Some (MaskAlpha a))
                 = Done (MaskAlpha a, FNaN))
   /\ Content (ImgRGBA (imageOf 0 3 [])) (Rect (imageOf 0 3 [])) = Done 0)
  /\
  (let p := mkRGBA [] 0 (mkRect 1 0 0 0) in
   SkinMask thresholds16 (ImgRGBA p) None = Panicked NegativeDimensions
   /\ (forall a, ARect a = Rect p ->
                 SkinMask thresholds16 (ImgRGBA p) (Some (MaskAlpha a))
                 = Done (MaskAlpha a, FNaN))
   /\ Content (ImgRGBA p) (Rect p) = Done 0).
Proof.
  split.
  - apply (empty_image thresholds16 (imageOf 0 3 [])). reflexivity.
  - apply (empty_image thresholds16 (mkRGBA [] 0 (mkRect 1 0 0 0))).
    reflexivity.
Defined.

Lemma ratio_unit (c a : Z) :
  0 <= c <= a -> 0 < a -> (0 <= inject_Z c / inject_Z a <= 1)%Q.
Proof.
  intros Hc Ha. destruct a as [|p|p]; try lia.
  unfold Qle, Qdiv, Qmult, Qinv, inject_Z. cbn [Qnum Qden].
  destruct c as [|q|q]; cbn; lia.
Qed.

(** X3. [SkinMask] with no mask on a well-formed, non-empty packed RGBA
    image, for any thresholds of the generic loop: it returns a new alpha
    mask over the bounds of the source, whose [k]-th byte is 255 if the
    [k]-th pixel of [Pix] passes the [uint8] test and 0 otherwise, and a
    coverage between 0 and 1, the number of marked bytes over the area. *)
Theorem SkinMask_nil_RGBA (th : thresholds) (p : RGBA) :
  wfRGBA p -> 0 < Dx (Rect p) * Dy (Rect p) ->
  exists mpix q,
    SkinMask th (ImgRGBA p) None
    = Done (MaskAlpha (mkAlpha mpix (1 * Dx (Rect p)) (Rect p)), FFin q)
    /\ (0 <= q <= 1)%Q
    /\ q = (inject_Z (countSkin (Pix p)
                                (Z.to_nat (Dx (Rect p) * Dy (Rect p))))
            / inject_Z (Dy (Rect p) * Dx (Rect p)))%Q
    /\ Z.of_nat (length mpix) = Dx (Rect p) * Dy (Rect p)
    /\ forall k, (k < length mpix)%nat ->
                 nth k mpix x00 = if skinAt (Pix p) k then xff else x00.
Proof.
  intros Hwf Harea. pose proof Hwf as (Hx & Hy & _).
  destruct (skinMaskColorRGBA_walk p (blankAlpha (Rect p)) Hwf
              (blankAlpha_wf (Rect p) Hx Hy) eq_refl)
    as (mpix & Hrun & Hlen & Hnth).
  cbn [blankAlpha APix AStride ARect] in Hrun, Hlen, Hnth.
  rewrite repeat_length in Hlen.
  replace (1 * Dx (Rect p) * Dy (Rect p)) with (Dx (Rect p) * Dy (Rect p))
    in Hlen, Hnth by lia.
  exists mpix. eexists.
  split.
  { unfold SkinMask. rewrite skinMaskColor_nil by assumption.
    unfold skinMaskColor. cbn [bind Bounds Mask_Bounds blankAlpha ARect].
    rewrite rect_eqb_refl. cbn [blankAlpha] in *. rewrite Hrun. cbn [bind fst snd].
    unfold fdiv.
    destruct (Z.eqb_spec (Dy (Rect p) * Dx (Rect p)) 0) as [E|E]; [lia|].
    reflexivity. }
  split.
  { apply ratio_unit; [|lia].
    pose proof (countSkin_bounds (Pix p)
                  (Z.to_nat (Dx (Rect p) * Dy (Rect p)))).
    lia. }
  split; [reflexivity|]. split; [lia|].
  intros k Hk. rewrite Hnth.
  replace (k <? Z.to_nat (Dx (Rect p) * Dy (Rect p)))%nat with true
    by (symmetry; apply Nat.ltb_lt; lia).
  cbn [andb]. destruct (skinAt (Pix p) k); [reflexivity|].
  destruct (nth_in_or_default k
              (repeat x00 (Z.to_nat (Dx (Rect p) * Dy (Rect p)))) x00)
    as [Hin|Hd]; [|exact Hd].
  apply repeat_spec in Hin. exact Hin.
Qed.

Lemma SkinMask_nil_RGBA_witness :
  exists mpix q,
    SkinMask thresholds16 (ImgRGBA demoSrc) None
    = Done (MaskAlpha (mkAlpha mpix (1 * Dx (Rect demoSrc)) (Rect demoSrc)),
            FFin q)
    /\ (0 <= q <= 1)%Q
    /\ q = (inject_Z (countSkin (Pix demoSrc)
                                (Z.to_nat (Dx (Rect demoSrc)
                                           * Dy (Rect demoSrc))))
            / inject_Z (Dy (Rect demoSrc) * Dx (Rect demoSrc)))%Q
    /\ Z.of_nat (length mpix) = Dx (Rect demoSrc) * Dy (Rect demoSrc)
    /\ forall k, (k < length mpix)%nat ->
                 nth k mpix x00 = if skinAt (Pix demoSrc) k then xff else x00.
Proof.
  apply (SkinMask_nil_RGBA thresholds16 demoSrc); [by_eval|reflexivity].
Defined.

(** X2. [skinMaskColorRGBA] reads the red and green bytes only: two
    well-formed sources of the same bounds whose pixels agree on red and
    green give the same mask and the same coverage, whatever their blue and
    alpha bytes. *)
Theorem skinMaskColorRGBA_red_green_only (src1 src2 : RGBA) (mask : Alpha) :
  wfRGBA src1 -> wfRGBA src2 -> wfAlpha mask ->
  Rect src1 = ARect mask -> Rect src2 = ARect mask ->
  (forall k, (k < Z.to_nat (Dx (ARect mask) * Dy (ARect mask)))%nat ->
             redAt (Pix src1) k = redAt (Pix src2) k
             /\ greenAt (Pix src1) k = greenAt (Pix src2) k) ->
  skinMaskColorRGBA src1 mask = skinMaskColorRGBA src2 mask.
Proof.
  intros Hwf1 Hwf2 Hm Hr1 Hr2 Hrg.
  destruct (skinMaskColorRGBA_walk src1 mask Hwf1 Hm Hr1)
    as (m1 & -> & Hl1 & Hn1).
  destruct (skinMaskColorRGBA_walk src2 mask Hwf2 Hm Hr2)
    as (m2 & -> & Hl2 & Hn2).
  rewrite Hr1 in *. rewrite Hr2 in *.
  set (n := Z.to_nat (Dx (ARect mask) * Dy (ARect mask))) in *.
  assert (Hskin : forall k, (k < n)%nat ->
                            skinAt (Pix src1) k = skinAt (Pix src2) k).
  { intros k Hk. unfold skinAt. destruct (Hrg k Hk) as [-> ->]. reflexivity. }
  assert (Hcount : countSkin (Pix src1) n = countSkin (Pix src2) n).
  { unfold countSkin. f_equal. f_equal. apply filter_ext_in.
    intros k Hk. apply in_seq in Hk. apply Hskin. lia. }
  assert (Hpix : m1 = m2).
  { apply (nth_ext m1 m2 x00 x00); [congruence|].
    intros k _. rewrite Hn1, Hn2.
    destruct (Nat.ltb_spec k n); [|reflexivity].
    rewrite (Hskin k) by assumption. reflexivity. }
  rewrite Hcount, Hpix. reflexivity.
Qed.

Lemma skinMaskColorRGBA_red_green_only_witness :
  skinMaskColorRGBA demoSrc demoMask = skinMaskColorRGBA demoSrc' demoMask.
Proof.
  apply (skinMaskColorRGBA_red_green_only demoSrc demoSrc' demoMask);
    [by_eval|by_eval|by_eval|reflexivity|reflexivity|].
  intros k Hk. change (k < 4)%nat in Hk.
  destruct k as [|[|[|[|k]]]]; [split; reflexivity..|lia].
Defined.

(** X11. The bucket of a packed RGBA pixel in the generic loop of [Content]
    is the average (R + G + B) / 3 of its 8-bit channels; the bucket taken
    by [contentRGBA] is the same exactly when R + G + B is below 256. *)
Theorem buckets_agree_iff (r g b a : byte) :
  bucketGeneric (mkColor (widen r) (widen g) (widen b) (widen a))
  = (u8 r + u8 g + u8 b) / 3
  /\ (bucketRGBA r g b
      = bucketGeneric (mkColor (widen r) (widen g) (widen b) (widen a))
      <-> u8 r + u8 g + u8 b < 256).
Proof.
  pose proof (u8_range r) as Hr. pose proof (u8_range g) as Hg.
  pose proof (u8_range b) as Hb.
  assert (Hshift : forall c : byte, Z.shiftr (widen c) 8 = u8 c).
  { intros c. destruct c; reflexivity. }
  assert (Hgen : bucketGeneric
                   (mkColor (widen r) (widen g) (widen b) (widen a))
                 = (u8 r + u8 g + u8 b) / 3).
  { unfold bucketGeneric. cbn [cR cG cB]. rewrite !Hshift.
    unfold add32, wrap32, wrap8.
    rewrite (Z.mod_small (u8 r + u8 g)) by lia.
    rewrite (Z.mod_small (u8 r + u8 g + u8 b)) by lia.
    rewrite Z.quot_div_nonneg by lia.
    apply Z.mod_small.
    split; [apply Z.div_pos; lia|apply Z.div_lt_upper_bound; lia]. }
  split; [exact Hgen|].
  rewrite Hgen, bucketRGBA_sum.
  set (s := u8 r + u8 g + u8 b) in *.
  assert (Hs : 0 <= s <= 765) by (unfold s; lia).
  split.
  - intros E. destruct (Z.lt_ge_cases s 256) as [Hlt|Hge]; [exact Hlt|].
    exfalso.
    assert (s mod 256 <= s - 256).
    { pose proof (Z.div_mod s 256 ltac:(lia)).
      assert (1 <= s / 256) by (apply Z.div_le_lower_bound; lia).
      lia. }
    assert (s mod 256 / 3 <= (s - 256) / 3) by (apply Z.div_le_mono; lia).
    assert ((s - 256) / 3 < s / 3).
    { pose proof (Z.div_mod s 3 ltac:(lia)).
      pose proof (Z.mod_pos_bound s 3 ltac:(lia)).
      apply Z.div_lt_upper_bound; lia. }
    lia.
  - intros Hlt. rewrite Z.mod_small by lia. reflexivity.
Qed.

(** * Further properties of the generic loops *)

Lemma foldM_app {A St : Type} (body : A -> St -> outcome St)
  (l1 l2 : list A) (s : St) :
  foldM body (l1 ++ l2) s = (s' <- foldM body l1 s ;; foldM body l2 s').
Proof.
  revert s. induction l1 as [|a l1 IH]; intros s; cbn [app foldM bind];
    [reflexivity|].
  destruct (body a s) as [s1| |]; cbn [bind]; [apply IH|reflexivity..].
Qed.

Lemma foldM_map {A B St : Type} (body : B -> St -> outcome St) (f : A -> B)
  (l : list A) (s : St) :
  foldM body (map f l) s = foldM (fun a => body (f a)) l s.
Proof.
  revert s. induction l as [|a l IH]; intros s; cbn [map foldM];
    [reflexivity|].
  destruct (body (f a) s) as [s1| |]; cbn [bind]; [apply IH|reflexivity..].
Qed.

(** Two nested loops are one loop over the points of [walk]. *)
Lemma nested_foldM {St : Type} (B : Z -> Z -> St -> outcome St)
  (r : Rectangle) (s : St) :
  foldM (fun y s => foldM (fun x s => B x y s)
                          (rangeIncl (MinX r) (MaxX r)) s)
        (rangeIncl (MinY r) (MaxY r)) s
  = foldM (fun p s => B (fst p) (snd p) s) (walk r) s.
Proof.
  unfold walk. generalize (rangeIncl (MinX r) (MaxX r)) as lx.
  generalize (rangeIncl (MinY r) (MaxY r)) as ly. intros ly lx. revert s.
  induction ly as [|y ly IH]; intros s; cbn [foldM flat_map]; [reflexivity|].
  rewrite foldM_app, foldM_map. cbn [fst snd].
  destruct (foldM (fun x s0 => B x y s0) lx s) as [s1| |]; cbn [bind];
    [apply IH|reflexivity..].
Qed.

Lemma In_rangeIncl (lo hi x : Z) : In x (rangeIncl lo hi) <-> lo <= x <= hi.
Proof.
  unfold rangeIncl. rewrite in_map_iff. split.
  - intros (i & <- & Hi). apply in_seq in Hi. lia.
  - intros H. exists (Z.to_nat (x - lo)). split; [lia|].
    apply in_seq. lia.
Qed.

Lemma length_rangeIncl (lo hi : Z) :
  Z.of_nat (length (rangeIncl lo hi)) = Z.max 0 (hi - lo + 1).
Proof. unfold rangeIncl. rewrite length_map, length_seq. lia. Qed.

Lemma In_walk (r : Rectangle) (x y : Z) :
  In (x, y) (walk r)
  <-> MinX r <= x <= MaxX r /\ MinY r <= y <= MaxY r.
Proof.
  unfold walk. rewrite in_flat_map. split.
  - intros (y0 & Hy & Hin). apply in_map_iff in Hin.
    destruct Hin as (x0 & E & Hx). injection E as <- <-.
    apply In_rangeIncl in Hy, Hx. lia.
  - intros [Hx Hy]. exists y. split; [apply In_rangeIncl; lia|].
    apply in_map_iff. exists x. split; [reflexivity|].
    apply In_rangeIncl. lia.
Qed.

Lemma length_walk (r : Rectangle) :
  Z.of_nat (length (walk r))
  = Z.max 0 (Dx r + 1) * Z.max 0 (Dy r + 1).
Proof.
  unfold walk, Dx, Dy.
  pose proof (length_rangeIncl (MinX r) (MaxX r)) as Hx.
  revert Hx. generalize (rangeIncl (MinX r) (MaxX r)) as lx. intros lx Hx.
  pose proof (length_rangeIncl (MinY r) (MaxY r)) as Hy.
  revert Hy. generalize (rangeIncl (MinY r) (MaxY r)) as ly. intros ly Hy.
  rewrite <- Hx, <- Hy. clear Hx Hy.
  induction ly as [|y ly IH]; cbn [flat_map length]; [lia|].
  rewrite length_app, length_map. lia.
Qed.

Lemma NoDup_map_inj {A B : Type} (f : A -> B) (l : list A) :
  (forall x y, f x = f y -> x = y) -> NoDup l -> NoDup (map f l).
Proof.
  intros Hinj H. induction H as [|x l Hx H IH]; cbn [map]; constructor;
    [|exact IH].
  intros Hin. apply in_map_iff in Hin. destruct Hin as (y & E & Hy).
  apply Hinj in E. subst y. contradiction.
Qed.

Lemma NoDup_rangeIncl (lo hi : Z) : NoDup (rangeIncl lo hi).
Proof.
  unfold rangeIncl. apply NoDup_map_inj; [intros x y H; lia|apply seq_NoDup].
Qed.

(** The walk visits no point twice. *)
Lemma NoDup_walk (r : Rectangle) : NoDup (walk r).
Proof.
  unfold walk.
  pose proof (NoDup_rangeIncl (MinX r) (MaxX r)) as Hx. revert Hx.
  generalize (rangeIncl (MinX r) (MaxX r)) as lx. intros lx Hx.
  pose proof (NoDup_rangeIncl (MinY r) (MaxY r)) as Hy. revert Hy.
  generalize (rangeIncl (MinY r) (MaxY r)) as ly. intros ly Hy.
  induction Hy as [|y ly Hy0 Hy IH]; cbn [flat_map]; [constructor|].
  apply NoDup_app.
  - apply NoDup_map_inj; [intros x1 x2 E; congruence|exact Hx].
  - exact IH.
  - intros [x1 y1] Hin1 Hin2. apply in_map_iff in Hin1.
    destruct Hin1 as (x0 & E & _). injection E as <- <-.
    apply in_flat_map in Hin2. destruct Hin2 as (y2 & Hy2 & Hin2).
    apply in_map_iff in Hin2. destruct Hin2 as (x2 & E & _).
    injection E as <- <-. contradiction.
Qed.

(** A loop whose body succeeds under an invariant and raises a counter by
    at most one per iteration. *)
Lemma foldM_done_count {A St : Type} (I : St -> Prop) (c : St -> Z)
  (body : A -> St -> outcome St) :
  (forall a s, I s ->
     exists s', body a s = Done s' /\ I s' /\ c s <= c s' <= c s + 1) ->
  forall l s, I s ->
    exists s', foldM body l s = Done s' /\ I s'
               /\ c s <= c s' <= c s + Z.of_nat (length l).
Proof.
  intros Hbody. induction l as [|a l IH]; intros s Hs; cbn [foldM length].
  - exists s. repeat split; try assumption; lia.
  - destruct (Hbody a s Hs) as (s1 & -> & Hs1 & Hc1). cbn [bind].
    destruct (IH s1 Hs1) as (s2 & -> & Hs2 & Hc2).
    exists s2. repeat split; try assumption; lia.
Qed.

(** X6. The generic loop of [skinMaskColor] on a well-formed source and
    mask returns the mask with its bounds unchanged and a coverage whose
    numerator is between 0 and (Dx+1)*(Dy+1), the number of points of the
    inclusive walk, while its denominator is the area Dx*Dy. *)
Theorem skinMaskColorGeneric_count
  (th : thresholds) (src : Image) (mask : Mask) :
  wfImage src -> wfMask mask ->
  exists mask' m,
    skinMaskColorGeneric th src mask
    = Done (mask', fdiv m (Dy (Mask_Bounds mask) * Dx (Mask_Bounds mask)))
    /\ Mask_Bounds mask' = Mask_Bounds mask
    /\ 0 <= m <= Z.max 0 (Dx (Mask_Bounds mask) + 1)
                 * Z.max 0 (Dy (Mask_Bounds mask) + 1).
Proof.
  intros Hsrc Hmask. unfold skinMaskColorGeneric.
  rewrite (nested_foldM (genericBody th src)).
  destruct (foldM_done_count
              (fun s : Mask * Z =>
                 wfMask (fst s) /\ Mask_Bounds (fst s) = Mask_Bounds mask)
              snd
              (fun p s => genericBody th src (fst p) (snd p) s))
    with (l := walk (Mask_Bounds mask)) (s := (mask, 0))
    as ([mask' m] & -> & [_ Hb] & Hc).
  - intros [x y] [m0 c0] [Hwf Hb]. cbn [fst snd] in *. unfold genericBody.
    destruct (At_done src x y Hsrc) as [c ->]. cbn [bind].
    destruct (skin32 th (cR c) (cG c)).
    + destruct m0 as [a|b l]; cbn [Mask_SetOpaque].
      * destruct (Alpha_SetOpaque_done a x y Hwf) as (a' & Ha & Hwf').
        assert (Hr : ARect a' = ARect a).
        { unfold Alpha_SetOpaque in Ha.
          destruct (negb (PtIn x y (ARect a))); [congruence|].
          destruct (store (APix a) (APixOffset a x y) xff);
            cbn [bind] in Ha; try discriminate.
          injection Ha as <-. reflexivity. }
        rewrite Ha. cbn [bind]. eexists. split; [reflexivity|].
        cbn [fst snd wfMask Mask_Bounds] in *.
        split; [split; [exact Hwf'|congruence]|lia].
      * eexists. split; [reflexivity|]. cbn [fst snd wfMask Mask_Bounds] in *.
        split; [split; [exact I|exact Hb]|lia].
    + eexists. split; [reflexivity|]. cbn [fst snd].
      split; [split; [exact Hwf|exact Hb]|lia].
  - cbn [fst]. split; [exact Hmask|reflexivity].
  - cbn [bind fst snd] in *. exists mask', m.
    split; [reflexivity|]. split; [exact Hb|].
    rewrite length_walk in Hc. lia.
Qed.

Lemma skinMaskColorGeneric_count_witness :
  exists mask' m,
    skinMaskColorGeneric thresholds16 (ImgRGBA demoSrc)
                         (MaskOther (mkRect 0 0 1 1) [])
    = Done (mask', fdiv m (Dy (mkRect 0 0 1 1) * Dx (mkRect 0 0 1 1)))
    /\ Mask_Bounds mask' = mkRect 0 0 1 1
    /\ 0 <= m <= Z.max 0 (Dx (mkRect 0 0 1 1) + 1)
                 * Z.max 0 (Dy (mkRect 0 0 1 1) + 1).
Proof.
  apply (skinMaskColorGeneric_count thresholds16 (ImgRGBA demoSrc)
           (MaskOther (mkRect 0 0 1 1) [])); [by_eval|exact I].
Defined.

Lemma foldM_pure {A St : Type} (body : A -> St -> outcome St)
  (f : St -> A -> St) (l : list A) (s : St) :
  (forall a s0, body a s0 = Done (f s0 a)) ->
  foldM body l s = Done (fold_left f l s).
Proof.
  intros Hbody. revert s. induction l as [|a l IH]; intros s;
    cbn [foldM fold_left]; [reflexivity|].
  rewrite Hbody. cbn [bind]. apply IH.
Qed.

(** X7. The generic loop of [skinMaskColor] with a mask that is not an
    [*image.Alpha]: [Set] is called with [color.Opaque] once at each point
    of the inclusive rectangle Min..Max of the mask whose source pixel
    passes the test, nowhere else, and the numerator of the coverage is the
    number of these calls. *)
Theorem skinMaskColorGeneric_calls
  (th : thresholds) (src : Image) (b : Rectangle) (l0 : list (Z * Z)) :
  wfImage src ->
  exists new,
    skinMaskColorGeneric th src (MaskOther b l0)
    = Done (MaskOther b (new ++ l0),
            fdiv (Z.of_nat (length new)) (Dy b * Dx b))
    /\ NoDup new
    /\ forall x y,
         In (x, y) new
         <-> (MinX b <= x <= MaxX b /\ MinY b <= y <= MaxY b
              /\ exists c, At src x y = Done c
                           /\ skin32 th (cR c) (cG c) = true).
Proof.
  intros Hsrc. unfold skinMaskColorGeneric. cbn [Mask_Bounds].
  rewrite (nested_foldM (genericBody th src)).
  set (step := fun (s : Mask * Z) (p : Z * Z) =>
                 if passes th src p
                 then (match fst s with
                       | MaskOther b1 l => MaskOther b1 (p :: l)
                       | m => m
                       end, snd s + 1)
                 else s).
  assert (Hfold : forall pts l c,
             fold_left step pts (MaskOther b l, c)
             = (MaskOther b (rev (filter (passes th src) pts) ++ l),
                c + Z.of_nat (length (filter (passes th src) pts)))).
  { induction pts as [|p pts IH]; intros l c; cbn [fold_left filter].
    - cbn. f_equal. lia.
    - unfold step at 2. cbn [fst snd].
      destruct (passes th src p) eqn:Ep.
      + rewrite IH. cbn [rev length]. rewrite <- app_assoc. cbn [app].
        f_equal. lia.
      + apply IH. }
  assert (Hrun : forall pts s,
             (exists l, fst s = MaskOther b l) ->
             foldM (fun p s => genericBody th src (fst p) (snd p) s) pts s
             = Done (fold_left step pts s)).
  { induction pts as [|p pts IH]; intros s Hs; cbn [foldM fold_left];
      [reflexivity|].
    destruct Hs as [l Hl]. destruct s as [m c]. cbn [fst] in Hl. subst m.
    destruct p as [x y]. unfold genericBody at 1, step at 2, passes.
    cbn [fst snd].
    destruct (At_done src x y Hsrc) as [col ->]. cbn [bind].
    destruct (skin32 th (cR col) (cG col)); cbn [Mask_SetOpaque bind];
      apply IH; cbn [fst]; eauto. }
  rewrite Hrun by (cbn [fst]; eauto). rewrite Hfold. cbn [bind].
  exists (rev (filter (passes th src) (walk b))).
  split; [rewrite length_rev; reflexivity|].
  split; [apply NoDup_rev, NoDup_filter, NoDup_walk|].
  intros x y. rewrite <- in_rev, filter_In, In_walk. unfold passes.
  cbn [fst snd]. split.
  - intros [[Hx Hy] Hp]. repeat split; try lia.
    destruct (At src x y) as [c| |]; try discriminate. eauto.
  - intros (Hx & Hy & c & -> & Hc). auto.
Qed.

Lemma skinMaskColorGeneric_calls_witness :
  exists new,
    skinMaskColorGeneric thresholds16 (ImgRGBA demoSrc)
                         (MaskOther (mkRect 0 0 1 1) [])
    = Done (MaskOther (mkRect 0 0 1 1) (new ++ []),
            fdiv (Z.of_nat (length new))
                 (Dy (mkRect 0 0 1 1) * Dx (mkRect 0 0 1 1)))
    /\ NoDup new
    /\ forall x y,
         In (x, y) new
         <-> (MinX (mkRect 0 0 1 1) <= x <= MaxX (mkRect 0 0 1 1)
              /\ MinY (mkRect 0 0 1 1) <= y <= MaxY (mkRect 0 0 1 1)
              /\ exists c, At (ImgRGBA demoSrc) x y = Done c
                           /\ skin32 thresholds16 (cR c) (cG c) = true).
Proof.
  apply (skinMaskColorGeneric_calls thresholds16 (ImgRGBA demoSrc)
           (mkRect 0 0 1 1) []); by_eval.
Defined.

Lemma onlyOpaque_refl (a : Alpha) : onlyOpaque a a.
Proof. unfold onlyOpaque. repeat split. auto. Qed.

Lemma onlyOpaque_trans (a b c : Alpha) :
  onlyOpaque a b -> onlyOpaque b c -> onlyOpaque a c.
Proof.
  intros (R1 & S1 & L1 & N1) (R2 & S2 & L2 & N2).
  unfold onlyOpaque. repeat split; try congruence.
  intros i. destruct (N2 i) as [E|E]; [rewrite E; apply N1|auto].
Qed.

Lemma Alpha_SetOpaque_onlyOpaque (a : Alpha) (x y : Z) :
  wfAlpha a ->
  exists a', Alpha_SetOpaque a x y = Done a' /\ wfAlpha a' /\ onlyOpaque a a'.
Proof.
  intros Hwf. destruct (Alpha_SetOpaque_done a x y Hwf) as (a' & Ha & Hwf').
  exists a'. split; [exact Ha|]. split; [exact Hwf'|].
  unfold Alpha_SetOpaque in Ha.
  destruct (negb (PtIn x y (ARect a))).
  - injection Ha as <-. apply onlyOpaque_refl.
  - unfold store in Ha.
    destruct (APixOffset a x y <? 0) eqn:E0; cbn [bind] in Ha;
      try discriminate.
    destruct (APixOffset a x y <? Z.of_nat (length (APix a))) eqn:E;
      cbn [bind] in Ha; try discriminate.
    injection Ha as <-. unfold onlyOpaque. cbn [APix AStride ARect].
    rewrite length_update. repeat split.
    intros i. apply Z.ltb_lt in E. apply Z.ltb_ge in E0.
    destruct (Nat.eq_dec (Z.to_nat (APixOffset a x y)) i) as [<-|Hne].
    + right. apply nth_update_same. lia.
    + left. apply nth_update_other. exact Hne.
Qed.

(** X4. [SkinMask] with a well-formed [*image.Alpha] mask, on either path:
    it returns that mask with the same bounds, stride and buffer length, and
    every byte of the buffer is either what it was or 255. The mask is never
    cleared and never resized. *)
Theorem SkinMask_only_sets_opaque
  (th : thresholds) (src : Image) (a : Alpha) :
  wfImage src -> wfAlpha a ->
  exists a' cover,
    SkinMask th src (Some (MaskAlpha a)) = Done (MaskAlpha a', cover)
    /\ onlyOpaque a a'.
Proof.
  intros Hsrc Ha.
  assert (Hgen : exists a' cover,
             skinMaskColorGeneric th src (MaskAlpha a)
             = Done (MaskAlpha a', cover) /\ onlyOpaque a a').
  { unfold skinMaskColorGeneric. cbn [Mask_Bounds].
    destruct (foldM_done
                (fun s : Mask * Z =>
                   exists a1, fst s = MaskAlpha a1 /\ wfAlpha a1
                              /\ onlyOpaque a a1)
                (fun y s =>
                   foldM (fun x s => genericBody th src x y s)
                         (rangeIncl (MinX (ARect a)) (MaxX (ARect a))) s))
      with (l := rangeIncl (MinY (ARect a)) (MaxY (ARect a)))
           (s := (MaskAlpha a, 0))
      as ([m' c] & -> & (a1 & Hm & _ & Ho)).
    - intros y s Hs. apply foldM_done; [|exact Hs].
      intros x [m c] (a1 & Hm & Hwf1 & Ho1). cbn [fst] in Hm. subst m.
      unfold genericBody.
      destruct (At_done src x y Hsrc) as [col ->]. cbn [bind].
      destruct (skin32 th (cR col) (cG col)).
      + cbn [Mask_SetOpaque].
        destruct (Alpha_SetOpaque_onlyOpaque a1 x y Hwf1)
          as (a2 & -> & Hwf2 & Ho2).
        cbn [bind]. eexists. split; [reflexivity|]. cbn [fst].
        exists a2. split; [reflexivity|]. split; [exact Hwf2|].
        eapply onlyOpaque_trans; eassumption.
      + eexists. split; [reflexivity|]. cbn [fst]. exists a1. auto.
    - cbn [fst]. exists a.
      split; [reflexivity|split; [exact Ha|apply onlyOpaque_refl]].
    - cbn [fst] in Hm. subst m'. cbn [bind]. eauto. }
  unfold SkinMask, skinMaskColor. cbn [bind Mask_Bounds].
  destruct (rect_eqb (Bounds src) (ARect a)) eqn:E; [|exact Hgen].
  destruct src as [p|b f]; [|exact Hgen].
  apply rect_eqb_eq in E. cbn [Bounds wfImage] in E, Hsrc.
  destruct (skinMaskColorRGBA_walk p a Hsrc Ha E) as (mpix & -> & Hl & Hn).
  cbn [bind fst snd]. eexists. eexists. split; [reflexivity|].
  unfold onlyOpaque. cbn [APix AStride ARect]. repeat split; [exact Hl|].
  intros i. rewrite Hn. destruct (_ && _); auto.
Qed.

Lemma SkinMask_only_sets_opaque_witness :
  exists a' cover,
    SkinMask thresholds16 (ImgRGBA demoSrc)
             (Some (MaskAlpha (blankAlpha (mkRect 0 0 1 1))))
    = Done (MaskAlpha a', cover)
    /\ onlyOpaque (blankAlpha (mkRect 0 0 1 1)) a'.
Proof.
  apply (SkinMask_only_sets_opaque thresholds16 (ImgRGBA demoSrc)
           (blankAlpha (mkRect 0 0 1 1))); by_eval.
Defined.

(** * When the two mask paths agree *)

Lemma foldM_seq_done {St : Type} (I : nat -> St -> Prop)
  (body : Z -> St -> outcome St) (f : nat -> Z) :
  forall cnt,
    (forall i s0, (i < cnt)%nat -> I i s0 ->
                  exists s', body (f i) s0 = Done s' /\ I (S i) s') ->
    forall s, I 0%nat s ->
      exists s', foldM body (map f (seq 0 cnt)) s = Done s' /\ I cnt s'.
Proof.
  induction cnt as [|cnt IH]; intros Hbody s Hs; [cbn; eauto|].
  rewrite seq_S, map_app, foldM_app. cbn [Nat.add map].
  destruct (IH (fun i s0 Hi => Hbody i s0 (Nat.lt_lt_succ_r _ _ Hi)) s Hs)
    as (s1 & -> & Hs1).
  cbn [bind foldM].
  destruct (Hbody cnt s1 (Nat.lt_succ_diag_r cnt) Hs1) as (s2 & -> & Hs2).
  cbn [bind]. eauto.
Qed.

Lemma rangeIncl_snoc (lo d : Z) :
  0 <= d ->
  rangeIncl lo (lo + d)
  = map (fun i => lo + Z.of_nat i) (seq 0 (Z.to_nat d)) ++ [lo + d].
Proof.
  intros Hd. unfold rangeIncl.
  replace (Z.to_nat (lo + d - lo + 1)) with (S (Z.to_nat d)) by lia.
  rewrite seq_S, map_app. cbn [Nat.add map]. do 3 f_equal. lia.
Qed.

(** A point outside the source reads as the zero color and changes
    nothing, provided the thresholds reject the zero color. *)
Lemma genericBody_outside (th : thresholds) (p : RGBA) (x y : Z)
  (s : Mask * Z) :
  skin32 th 0 0 = false -> PtIn x y (Rect p) = false ->
  genericBody th (ImgRGBA p) x y s = Done s.
Proof.
  intros H0 Hout. destruct s as [m c]. unfold genericBody, At, RGBA_At.
  rewrite Hout. cbn [negb bind cR cG]. rewrite H0. reflexivity.
Qed.

Section Unpadded.
Variable th : thresholds.
Variable p : RGBA.
Variable a : Alpha.
Hypothesis Hwf : wfRGBA p.
Hypothesis Hwfa : wfAlpha a.
Hypothesis Hstride : Stride p = 4 * Dx (Rect p).
Hypothesis Hastride : AStride a = Dx (Rect p).
Hypothesis Hrect : ARect a = Rect p.
Hypothesis Hzero : skin32 th 0 0 = false.
Hypothesis Hsame :
  forall k, (k < Z.to_nat (Dx (Rect p) * Dy (Rect p)))%nat ->
            skin32 th (widen (redAt (Pix p) k)) (widen (greenAt (Pix p) k))
            = skinAt (Pix p) k.

(** The generic body at the point of column [i] and row [j] of the image
    does what the buffer walk does at pixel [j * Dx + i]. *)
Lemma genericBody_inside (i j : Z) (s : Mask * Z) :
  0 <= i < Dx (Rect p) -> 0 <= j < Dy (Rect p) ->
  genInv (Pix p) a (j * Dx (Rect p) + i) s ->
  exists s',
    genericBody th (ImgRGBA p) (MinX (Rect p) + i) (MinY (Rect p) + j) s
    = Done s'
    /\ genInv (Pix p) a (j * Dx (Rect p) + i + 1) s'.
Proof.
  intros Hi Hj (mpix & Hm & Hinv). destruct s as [m c]. cbn [fst snd] in *.
  subst m. set (k := j * Dx (Rect p) + i) in *.
  destruct Hwf as (Hx & Hy & Hs & Hlen).
  destruct Hwfa as (Hax & Hay & Has & Halen).
  rewrite Hrect in Hax, Hay, Has, Halen.
  assert (Hk : 0 <= k < Dx (Rect p) * Dy (Rect p)) by (unfold k; nia).
  pose proof (flat_bound 4 (Stride p) (Dx (Rect p)) (Dy (Rect p))
                (Z.of_nat (length (Pix p))) k
                ltac:(lia) Hx Hy Hs Hlen Hk) as Hpix.
  pose proof (flat_bound 1 (AStride a) (Dx (Rect p)) (Dy (Rect p))
                (Z.of_nat (length (APix a))) k
                ltac:(lia) Hax Hay Has Halen Hk) as Hmask.
  assert (Hin : PtIn (MinX (Rect p) + i) (MinY (Rect p) + j) (Rect p) = true).
  { unfold PtIn, Dx, Dy in *. rewrite !andb_true_iff.
    repeat split; try (apply Z.leb_le; lia); apply Z.ltb_lt; lia. }
  assert (Hoff : PixOffset p (MinX (Rect p) + i) (MinY (Rect p) + j) = 4 * k).
  { unfold PixOffset, k. rewrite Hstride. nia. }
  assert (Haoff : APixOffset (mkAlpha mpix (AStride a) (ARect a))
                             (MinX (Rect p) + i) (MinY (Rect p) + j) = k).
  { unfold APixOffset, k. cbn [AStride ARect]. rewrite Hastride, Hrect. nia. }
  assert (Hlenm : length mpix = length (APix a))
    by (destruct Hinv as (_ & H & _); exact H).
  pose proof (maskInv_step (Pix p) (APix a) k c mpix ltac:(lia) ltac:(lia)
                Hinv) as Hstep.
  unfold genericBody, At, RGBA_At. rewrite Hin. cbn [negb]. rewrite Hoff.
  rewrite (index_nth (Pix p) (4 * k + 3) x00) by lia.
  rewrite (index_nth (Pix p) (4 * k) x00) by lia.
  rewrite (index_nth (Pix p) (4 * k + 1) x00) by lia.
  rewrite (index_nth (Pix p) (4 * k + 2) x00) by lia.
  cbn [bind cR cG].
  replace (Z.to_nat (4 * k)) with (4 * Z.to_nat k)%nat by lia.
  replace (Z.to_nat (4 * k + 1)) with (4 * Z.to_nat k + 1)%nat by lia.
  fold (redAt (Pix p) (Z.to_nat k)). fold (greenAt (Pix p) (Z.to_nat k)).
  rewrite Hsame by lia.
  destruct (skinAt (Pix p) (Z.to_nat k)).
  - assert (Hin' : PtIn (MinX (Rect p) + i) (MinY (Rect p) + j) (ARect a)
                     = true) by (rewrite Hrect; exact Hin).
    cbn [Mask_SetOpaque]. unfold Alpha_SetOpaque.
    rewrite Haoff. cbn [APix AStride ARect]. rewrite Hin'. cbn [negb].
    rewrite store_done by lia. cbn [bind].
    eexists. split; [reflexivity|].
    eexists. cbn [fst snd]. split; [reflexivity|].
    replace (k + 1 - 1) with k by lia. exact Hstep.
  - eexists. split; [reflexivity|].
    eexists. cbn [fst snd]. split; [reflexivity|].
    replace (k + 1 - 1) with k by lia. exact Hstep.
Qed.

(** One row of the image, then the point of column [Max.X]. *)
Lemma generic_row (j : Z) (s : Mask * Z) :
  0 <= j < Dy (Rect p) ->
  genInv (Pix p) a (j * Dx (Rect p)) s ->
  exists s',
    foldM (fun x s => genericBody th (ImgRGBA p) x (MinY (Rect p) + j) s)
          (rangeIncl (MinX (Rect p)) (MaxX (Rect p))) s
    = Done s'
    /\ genInv (Pix p) a ((j + 1) * Dx (Rect p)) s'.
Proof.
  intros Hj Hs. destruct Hwf as (Hx & _).
  replace (MaxX (Rect p)) with (MinX (Rect p) + Dx (Rect p))
    by (unfold Dx; lia).
  rewrite rangeIncl_snoc, foldM_app by exact Hx.
  destruct (foldM_seq_done
              (fun i s => genInv (Pix p) a (j * Dx (Rect p) + Z.of_nat i) s)
              (fun x s => genericBody th (ImgRGBA p) x (MinY (Rect p) + j) s)
              (fun i => MinX (Rect p) + Z.of_nat i)
              (Z.to_nat (Dx (Rect p))))
    with (s := s) as (s1 & -> & Hs1).
  - intros i s0 Hi Hinv.
    replace (j * Dx (Rect p) + Z.of_nat (S i))
      with (j * Dx (Rect p) + Z.of_nat i + 1) by lia.
    apply genericBody_inside; [lia|exact Hj|exact Hinv].
  - rewrite Z.add_0_r. exact Hs.
  - cbn [bind foldM]. rewrite genericBody_outside.
    + cbn [bind]. eexists. split; [reflexivity|].
      replace ((j + 1) * Dx (Rect p))
        with (j * Dx (Rect p) + Z.of_nat (Z.to_nat (Dx (Rect p)))) by lia.
      exact Hs1.
    + exact Hzero.
    + unfold PtIn, Dx. rewrite !andb_false_iff. left. left. right.
      apply Z.ltb_ge. lia.
Qed.

(** The row of [Max.Y] lies outside the image. *)
Lemma generic_last_row (s : Mask * Z) :
  foldM (fun x s => genericBody th (ImgRGBA p) x (MaxY (Rect p)) s)
        (rangeIncl (MinX (Rect p)) (MaxX (Rect p))) s
  = Done s.
Proof.
  generalize (rangeIncl (MinX (Rect p)) (MaxX (Rect p))) as lx.
  induction lx as [|x lx IH]; cbn [foldM]; [reflexivity|].
  rewrite genericBody_outside; [cbn [bind]; exact IH|exact Hzero|].
  unfold PtIn. rewrite !andb_false_iff. right. apply Z.ltb_ge. lia.
Qed.

End Unpadded.

(** * The generic loop of Content *)

Lemma bucketGeneric_range (c : rgba32) : 0 <= bucketGeneric c < 256.
Proof.
  unfold bucketGeneric, wrap8. apply Z.mod_pos_bound. lia.
Qed.

(** The generic loop of [Content] from entry to exit. *)
Lemma histGeneric_walk (src : Image) (r : Rectangle) :
  wfImage src ->
  exists C,
    histGeneric src r = Done C
    /\ length C = 768%nat
    /\ (forall i, nth i C 0 = countPoints src (walk r) (Z.of_nat i) mod 256)
    /\ (forall i, (256 <= i)%nat -> nth i C 0 = 0).
Proof.
  intros Hsrc. unfold histGeneric.
  rewrite (nested_foldM (contentGenericBody src)).
  assert (Hrun : forall pts C0,
             foldM (fun p C => contentGenericBody src (fst p) (snd p) C)
                   pts C0
             = Done (fold_left (fun C p => bump C (bucketOf src p)) pts C0)).
  { intros pts C0. apply foldM_pure. intros [x y] C.
    unfold contentGenericBody, bucketOf. cbn [fst snd].
    destruct (At_done src x y Hsrc) as [c ->]. reflexivity. }
  rewrite Hrun. eexists. split; [reflexivity|].
  assert (Hfold : forall pts C0,
             length C0 = 768%nat ->
             (forall i, 0 <= nth i C0 0 < 256) ->
             length (fold_left (fun C p => bump C (bucketOf src p)) pts C0)
             = 768%nat
             /\ forall i,
                  nth i (fold_left (fun C p => bump C (bucketOf src p))
                                   pts C0) 0
                  = (nth i C0 0 + countPoints src pts (Z.of_nat i)) mod 256).
  { induction pts as [|pt pts IH]; intros C0 HC0 Hrange; cbn [fold_left].
    - split; [exact HC0|]. intros i. unfold countPoints. cbn.
      rewrite Z.add_0_r, Z.mod_small by apply Hrange. reflexivity.
    - assert (Hb : 0 <= bucketOf src pt < 256).
      { unfold bucketOf. destruct (At src (fst pt) (snd pt));
          [apply bucketGeneric_range|lia..]. }
      destruct (IH (bump C0 (bucketOf src pt))) as [Hl Hn].
      + rewrite length_bump. exact HC0.
      + intros i. rewrite nth_bump by lia.
        destruct (Z.of_nat i =? bucketOf src pt); [|apply Hrange].
        apply Z.mod_pos_bound. lia.
      + split; [exact Hl|]. intros i. rewrite Hn, nth_bump by lia.
        unfold countPoints. cbn [filter].
        rewrite (Z.eqb_sym (Z.of_nat i)).
        destruct (bucketOf src pt =? Z.of_nat i); cbn [length];
          [|reflexivity].
        rewrite Zplus_mod_idemp_l. f_equal. lia. }
  destruct (Hfold (walk r) (repeat 0 (256 * 3)) (repeat_length 0 _))
    as [Hl Hn].
  { intros i. rewrite nth_repeat0. lia. }
  assert (Hcount : forall i, nth i (fold_left
                                     (fun C p => bump C (bucketOf src p))
                                     (walk r) (repeat 0 (256 * 3))) 0
                             = countPoints src (walk r) (Z.of_nat i) mod 256).
  { intros i. rewrite Hn, nth_repeat0. reflexivity. }
  split; [exact Hl|]. split; [exact Hcount|].
  intros i Hi. rewrite Hcount. unfold countPoints.
  replace (filter (fun p => bucketOf src p =? Z.of_nat i) (walk r))
    with (@nil (Z * Z)); [reflexivity|].
  symmetry. generalize (walk r) as pts.
  induction pts as [|pt pts IH]; cbn [filter]; [reflexivity|].
  assert (Hb : 0 <= bucketOf src pt < 256).
  { unfold bucketOf. destruct (At src (fst pt) (snd pt));
      [apply bucketGeneric_range|lia..]. }
  destruct (Z.eqb_spec (bucketOf src pt) (Z.of_nat i)); [lia|exact IH].
Qed.

(** * Statements of the buffer walks and of their agreement *)

(** X1. [skinMaskColorRGBA] on a well-formed source and mask of equal bounds:
    the mask keeps its length, its [k]-th byte becomes 255 exactly when [k]
    is below the pixel count and the [k]-th pixel of [src.Pix] passes the
    [uint8] test, every other byte is left as it was, and the coverage is the
    number of such pixels, which is at most the area, over the area. *)
Theorem skinMaskColorRGBA_marks (src : RGBA) (mask : Alpha) :
  wfRGBA src -> wfAlpha mask -> Rect src = ARect mask ->
  exists mpix,
    skinMaskColorRGBA src mask
    = Done (mkAlpha mpix (AStride mask) (ARect mask),
            fdiv (countSkin (Pix src)
                            (Z.to_nat (Dx (Rect src) * Dy (Rect src))))
                 (Dy (Rect src) * Dx (Rect src)))
    /\ 0 <= countSkin (Pix src) (Z.to_nat (Dx (Rect src) * Dy (Rect src)))
         <= Dx (Rect src) * Dy (Rect src)
    /\ length mpix = length (APix mask)
    /\ forall k,
         nth k mpix x00
         = if (k <? Z.to_nat (Dx (Rect src) * Dy (Rect src)))%nat
              && skinAt (Pix src) k
           then xff else nth k (APix mask) x00.
Proof.
  intros Hwf Hwfa Hrect.
  destruct (skinMaskColorRGBA_walk src mask Hwf Hwfa Hrect)
    as (mpix & Hrun & Hlen & Hnth).
  exists mpix. split; [exact Hrun|]. split; [|split; assumption].
  destruct Hwf as (Hx & Hy & _).
  pose proof (countSkin_bounds (Pix src)
                (Z.to_nat (Dx (Rect src) * Dy (Rect src)))).
  nia.
Qed.

Lemma skinMaskColorRGBA_marks_witness :
  exists mpix,
    skinMaskColorRGBA demoSrc demoMask
    = Done (mkAlpha mpix (AStride demoMask) (ARect demoMask),
            fdiv (countSkin (Pix demoSrc)
                            (Z.to_nat (Dx (Rect demoSrc) * Dy (Rect demoSrc))))
                 (Dy (Rect demoSrc) * Dx (Rect demoSrc)))
    /\ 0 <= countSkin (Pix demoSrc)
                      (Z.to_nat (Dx (Rect demoSrc) * Dy (Rect demoSrc)))
         <= Dx (Rect demoSrc) * Dy (Rect demoSrc)
    /\ length mpix = length (APix demoMask)
    /\ forall k,
         nth k mpix x00
         = if (k <? Z.to_nat (Dx (Rect demoSrc) * Dy (Rect demoSrc)))%nat
              && skinAt (Pix demoSrc) k
           then xff else nth k (APix demoMask) x00.
Proof.
  apply (skinMaskColorRGBA_marks demoSrc demoMask);
    [by_eval|by_eval|reflexivity].
Defined.

(** With the thresholds scaled to 16 bits the two tests agree on every
    pixel whose red is at least its green. *)
Lemma skin_tests_agree_no_wrap (r g : byte) :
  u8 g <= u8 r -> skin32 thresholds16 (widen r) (widen g) = skin8 r g.
Proof.
  intros Hle. apply Bool.eq_iff_eq_true.
  rewrite skin32_rule, skin8_rule_no_wrap by exact Hle. reflexivity.
Qed.

(** X5. When the two mask paths agree. On a well-formed packed RGBA source
    and alpha mask of the same bounds, both without row padding, the generic
    loop of [skinMaskColor] returns exactly what [SkinMask] returns through
    [skinMaskColorRGBA] (the same mask bytes and the same coverage), for any
    thresholds that reject the zero color and decide every pixel of the
    image as the [uint8] test does. *)
Theorem mask_paths_agree (th : thresholds) (p : RGBA) (a : Alpha) :
  wfRGBA p -> wfAlpha a ->
  Stride p = 4 * Dx (Rect p) -> AStride a = Dx (Rect p) ->
  ARect a = Rect p ->
  skin32 th 0 0 = false ->
  (forall k, (k < Z.to_nat (Dx (Rect p) * Dy (Rect p)))%nat ->
             skin32 th (widen (redAt (Pix p) k)) (widen (greenAt (Pix p) k))
             = skinAt (Pix p) k) ->
  skinMaskColorGeneric th (ImgRGBA p) (MaskAlpha a)
  = SkinMask th (ImgRGBA p) (Some (MaskAlpha a)).
Proof.
  intros Hwf Hwfa Hstride Hastride Hrect Hzero Hsame.
  pose proof Hwf as (Hx & Hy & _).
  destruct (skinMaskColorRGBA_walk p a Hwf Hwfa (eq_sym Hrect))
    as (mpix1 & Hfast & Hl1 & Hn1).
  unfold SkinMask, skinMaskColor. cbn [bind Bounds Mask_Bounds].
  rewrite Hrect, rect_eqb_refl, Hfast. cbn [bind fst snd].
  unfold skinMaskColorGeneric. cbn [Mask_Bounds]. rewrite Hrect.
  replace (MaxY (Rect p)) with (MinY (Rect p) + Dy (Rect p)) at 1
    by (unfold Dy; lia).
  rewrite rangeIncl_snoc, foldM_app by exact Hy.
  destruct (foldM_seq_done
              (fun j s => genInv (Pix p) a (Z.of_nat j * Dx (Rect p)) s)
              (fun y s =>
                 foldM (fun x s => genericBody th (ImgRGBA p) x y s)
                       (rangeIncl (MinX (Rect p)) (MaxX (Rect p))) s)
              (fun j => MinY (Rect p) + Z.of_nat j)
              (Z.to_nat (Dy (Rect p))))
    with (s := (MaskAlpha a, 0)) as ([m2 c2] & -> & (mpix2 & Hm2 & Hinv2)).
  - intros j s0 Hj Hinv.
    replace (Z.of_nat (S j) * Dx (Rect p))
      with ((Z.of_nat j + 1) * Dx (Rect p)) by lia.
    apply generic_row; try assumption. lia.
  - exists (APix a). cbn [fst snd]. split.
    + destruct a; reflexivity.
    + unfold maskInv. cbn. repeat split; reflexivity.
  - cbn [bind foldM].
    replace (MinY (Rect p) + Dy (Rect p)) with (MaxY (Rect p))
      by (unfold Dy; lia).
    rewrite generic_last_row by exact Hzero. cbn [bind fst snd] in *. subst m2.
    destruct Hinv2 as (_ & Hl2 & Hc2 & Hn2).
    replace (Z.to_nat (Z.of_nat (Z.to_nat (Dy (Rect p))) * Dx (Rect p)))
      with (Z.to_nat (Dx (Rect p) * Dy (Rect p))) in Hc2, Hn2 by nia.
    assert (Hpix : mpix2 = mpix1).
    { apply (nth_ext mpix2 mpix1 x00 x00); [congruence|].
      intros k _. rewrite Hn1, Hn2. reflexivity. }
    rewrite Hpix, Hc2, Hrect. reflexivity.
Qed.

Lemma mask_paths_agree_witness :
  skinMaskColorGeneric thresholds16 (ImgRGBA demoSrc) (MaskAlpha demoMask)
  = SkinMask thresholds16 (ImgRGBA demoSrc) (Some (MaskAlpha demoMask)).
Proof.
  apply (mask_paths_agree thresholds16 demoSrc demoMask);
    [by_eval|by_eval|reflexivity|reflexivity|reflexivity|reflexivity|].
  intros k Hk. change (k < 4)%nat in Hk.
  destruct k as [|[|[|[|k]]]]; [reflexivity..|lia].
Defined.

(** * The generic loop on alpha masks, by coordinates *)

Lemma offset_inj (s w x y x' y' : Z) :
  0 <= x < w -> 0 <= x' < w -> w <= s ->
  y * s + x = y' * s + x' -> x = x' /\ y = y'.
Proof.
  intros Hx Hx' Hs E.
  destruct (Z.lt_trichotomy y y') as [H|[H|H]]; [nia|subst; lia|nia].
Qed.

Lemma visited_app (pts : list (Z * Z)) (q : Z * Z) (x y : Z) :
  visited (pts ++ [q]) x y
  = visited pts x y || ((fst q =? x) && (snd q =? y)).
Proof.
  unfold visited. rewrite existsb_app. cbn [existsb].
  rewrite orb_false_r. reflexivity.
Qed.

Lemma visited_In (pts : list (Z * Z)) (x y : Z) :
  In (x, y) pts -> visited pts x y = true.
Proof.
  intros H. unfold visited. apply existsb_exists. exists (x, y).
  split; [exact H|]. cbn [fst snd]. rewrite !Z.eqb_refl. reflexivity.
Qed.

(** A loop whose body succeeds under an invariant indexed by the elements
    already gone over. *)
Lemma foldM_prefix_done {A St : Type} (J : list A -> St -> Prop)
  (body : A -> St -> outcome St) :
  (forall pre a s, J pre s ->
     exists s', body a s = Done s' /\ J (pre ++ [a]) s') ->
  forall l pre s, J pre s ->
    exists s', foldM body l s = Done s' /\ J (pre ++ l) s'.
Proof.
  intros Hbody. induction l as [|a l IH]; intros pre s Hs; cbn [foldM].
  - rewrite app_nil_r. eauto.
  - destruct (Hbody pre a s Hs) as (s1 & -> & Hs1). cbn [bind].
    destruct (IH (pre ++ [a]) s1 Hs1) as (s2 & -> & Hs2).
    rewrite <- app_assoc in Hs2. cbn [app] in Hs2. eauto.
Qed.

Lemma genericBody_alpha_step (th : thresholds) (src : Image) (a : Alpha)
  (pre : list (Z * Z)) (q : Z * Z) (s : Mask * Z) :
  wfImage src -> wfAlpha a ->
  alphaInv th src a pre s ->
  exists s', genericBody th src (fst q) (snd q) s = Done s'
             /\ alphaInv th src a (pre ++ [q]) s'.
Proof.
  intros Hsrc Ha (a1 & Hm & Hwf1 & Ho1 & Hc & Hn). destruct s as [m c].
  cbn [fst snd] in Hm, Hc. subst m. destruct q as [x0 y0]. cbn [fst snd].
  pose proof Ho1 as (Hr1 & Hs1 & Hl1 & _).
  assert (Hpass : passes th src (x0, y0)
                  = match At src x0 y0 with
                    | Done c0 => skin32 th (cR c0) (cG c0)
                    | _ => false
                    end) by reflexivity.
  assert (Hcount : forall b, passes th src (x0, y0) = b ->
             Z.of_nat (length (filter (passes th src) (pre ++ [(x0, y0)])))
             = c + (if b then 1 else 0)).
  { intros b Hb. rewrite filter_app, length_app. cbn [filter]. rewrite Hb.
    destruct b; cbn [length]; lia. }
  unfold genericBody. destruct (At_done src x0 y0 Hsrc) as [col Hcol].
  rewrite Hcol in Hpass |- *. cbn [bind].
  destruct (skin32 th (cR col) (cG col)) eqn:Eskin.
  - cbn [Mask_SetOpaque]. unfold Alpha_SetOpaque.
    destruct (PtIn x0 y0 (ARect a1)) eqn:Ein; cbn [negb bind].
    + pose proof Hwf1 as (Hx & Hy & Hst & Hlen).
      assert (Hb : PtIn x0 y0 (ARect a1) = true) by exact Ein.
      unfold PtIn in Hb. rewrite !andb_true_iff in Hb.
      destruct Hb as [[[E1 E2] E3] E4].
      apply Z.leb_le in E1, E3. apply Z.ltb_lt in E2, E4.
      unfold Dx, Dy in *.
      destruct (offset_bound 1 (AStride a1) (MaxX (ARect a1) - MinX (ARect a1))
                  (MaxY (ARect a1) - MinY (ARect a1))
                  (Z.of_nat (length (APix a1)))
                  (x0 - MinX (ARect a1)) (y0 - MinY (ARect a1)))
        as [Hlo Hhi]; try lia.
      unfold APixOffset at 1. rewrite store_done by lia. cbn [bind].
      eexists. split; [reflexivity|].
      eexists. cbn [fst snd]. split; [reflexivity|].
      split.
      { unfold wfAlpha, Dx, Dy. cbn [APix AStride ARect].
        rewrite length_update. lia. }
      split.
      { eapply onlyOpaque_trans; [exact Ho1|].
        unfold onlyOpaque. cbn [APix AStride ARect]. rewrite length_update.
        repeat split. intros i.
        destruct (Nat.eq_dec
                    (Z.to_nat ((y0 - MinY (ARect a1)) * AStride a1
                               + (x0 - MinX (ARect a1)) * 1)) i) as [<-|Hne].
        - right. apply nth_update_same. lia.
        - left. apply nth_update_other. exact Hne. }
      split; [rewrite (Hcount true Hpass); lia|].
      intros x y Hxy. cbn [APix]. rewrite visited_app. cbn [fst snd].
      assert (Hb : PtIn x y (ARect a) = true) by exact Hxy.
      unfold PtIn in Hb. rewrite !andb_true_iff in Hb.
      destruct Hb as [[[F1 F2] F3] F4].
      apply Z.leb_le in F1, F3. apply Z.ltb_lt in F2, F4.
      unfold APixOffset. rewrite Hr1, Hs1 in *.
      destruct (offset_bound 1 (AStride a) (MaxX (ARect a) - MinX (ARect a))
                  (MaxY (ARect a) - MinY (ARect a))
                  (Z.of_nat (length (APix a1)))
                  (x - MinX (ARect a)) (y - MinY (ARect a)))
        as [Glo Ghi]; try lia.
      destruct (Z.eqb_spec x0 x) as [Ex|Ex];
        [destruct (Z.eqb_spec y0 y) as [Ey|Ey]|].
      * subst x0 y0. rewrite orb_true_r, Hpass. cbn [andb].
        apply nth_update_same. lia.
      * cbn [andb]. rewrite orb_false_r. rewrite nth_update_other.
        { apply (Hn x y Hxy). }
        intros E. apply Ey.
        assert ((y0 - MinY (ARect a)) * AStride a + (x0 - MinX (ARect a))
                = (y - MinY (ARect a)) * AStride a + (x - MinX (ARect a)))
          by lia.
        destruct (offset_inj (AStride a) (MaxX (ARect a) - MinX (ARect a))
                    (x0 - MinX (ARect a)) (y0 - MinY (ARect a))
                    (x - MinX (ARect a)) (y - MinY (ARect a)));
          try lia.
      * cbn [andb]. rewrite orb_false_r. rewrite nth_update_other.
        { apply (Hn x y Hxy). }
        intros E. apply Ex.
        assert ((y0 - MinY (ARect a)) * AStride a + (x0 - MinX (ARect a))
                = (y - MinY (ARect a)) * AStride a + (x - MinX (ARect a)))
          by lia.
        destruct (offset_inj (AStride a) (MaxX (ARect a) - MinX (ARect a))
                    (x0 - MinX (ARect a)) (y0 - MinY (ARect a))
                    (x - MinX (ARect a)) (y - MinY (ARect a)));
          try lia.
    + eexists. split; [reflexivity|].
      exists a1. cbn [fst snd]. split; [reflexivity|].
      split; [exact Hwf1|]. split; [exact Ho1|].
      split; [rewrite (Hcount true Hpass); lia|].
      intros x y Hxy. rewrite visited_app. cbn [fst snd].
      destruct ((x0 =? x) && (y0 =? y)) eqn:Eq.
      * apply andb_true_iff in Eq. destruct Eq as [Ex Ey].
        apply Z.eqb_eq in Ex, Ey. subst x0 y0.
        rewrite Hr1 in Ein. congruence.
      * rewrite orb_false_r. apply (Hn x y Hxy).
  - eexists. split; [reflexivity|].
    exists a1. cbn [fst snd]. split; [reflexivity|].
    split; [exact Hwf1|]. split; [exact Ho1|].
    split; [rewrite (Hcount false Hpass); lia|].
    intros x y Hxy. rewrite visited_app. cbn [fst snd].
    destruct ((x0 =? x) && (y0 =? y)) eqn:Eq.
    + apply andb_true_iff in Eq. destruct Eq as [Ex Ey].
      apply Z.eqb_eq in Ex, Ey. subst x0 y0.
      rewrite orb_true_r, Hpass. cbn [andb].
      rewrite (Hn x y Hxy), Hpass, andb_false_r. reflexivity.
    + rewrite orb_false_r. apply (Hn x y Hxy).
Qed.

(** X14. The generic loop of [skinMaskColor] on a well-formed source and
    [*image.Alpha] mask, in coordinates: the mask byte of every point inside
    the mask's bounds becomes 255 if the source pixel at that point passes
    the test and is left as it was otherwise; no byte is changed to anything
    but 255; the numerator of the coverage is the number of passing points
    of the inclusive rectangle Min..Max. *)
Theorem skinMaskColorGeneric_alpha_at
  (th : thresholds) (src : Image) (a : Alpha) :
  wfImage src -> wfAlpha a ->
  exists a',
    skinMaskColorGeneric th src (MaskAlpha a)
    = Done (MaskAlpha a',
            fdiv (Z.of_nat (length (filter (passes th src) (walk (ARect a)))))
                 (Dy (ARect a) * Dx (ARect a)))
    /\ onlyOpaque a a'
    /\ forall x y,
         PtIn x y (ARect a) = true ->
         nth (Z.to_nat (APixOffset a x y)) (APix a') x00
         = if passes th src (x, y) then xff
           else nth (Z.to_nat (APixOffset a x y)) (APix a) x00.
Proof.
  intros Hsrc Ha. unfold skinMaskColorGeneric. cbn [Mask_Bounds].
  rewrite (nested_foldM (genericBody th src)).
  destruct (foldM_prefix_done (alphaInv th src a)
              (fun q s => genericBody th src (fst q) (snd q) s))
    with (l := walk (ARect a)) (pre := @nil (Z * Z)) (s := (MaskAlpha a, 0))
    as ([m c] & -> & (a1 & Hm & _ & Ho & Hc & Hn)).
  - intros pre q s Hs. apply genericBody_alpha_step; assumption.
  - exists a. cbn [fst snd]. split; [reflexivity|].
    split; [exact Ha|]. split; [apply onlyOpaque_refl|].
    split; [reflexivity|]. intros x y _. reflexivity.
  - cbn [app fst snd bind] in *. subst m c. exists a1.
    split; [reflexivity|]. split; [exact Ho|].
    intros x y Hxy. rewrite (Hn x y Hxy).
    rewrite visited_In; [reflexivity|].
    apply In_walk. unfold PtIn in Hxy. rewrite !andb_true_iff in Hxy.
    destruct Hxy as [[[E1 E2] E3] E4].
    apply Z.leb_le in E1, E3. apply Z.ltb_lt in E2, E4. lia.
Qed.

Lemma skinMaskColorGeneric_alpha_at_witness :
  exists a',
    skinMaskColorGeneric thresholds16 (ImgRGBA demoSrc)
                         (MaskAlpha (blankAlpha (mkRect 0 0 1 1)))
    = Done (MaskAlpha a',
            fdiv (Z.of_nat (length (filter (passes thresholds16
                                                   (ImgRGBA demoSrc))
                                           (walk (ARect (blankAlpha
                                                           (mkRect 0 0 1 1)))))))
                 (Dy (ARect (blankAlpha (mkRect 0 0 1 1)))
                  * Dx (ARect (blankAlpha (mkRect 0 0 1 1)))))
    /\ onlyOpaque (blankAlpha (mkRect 0 0 1 1)) a'
    /\ forall x y,
         PtIn x y (ARect (blankAlpha (mkRect 0 0 1 1))) = true ->
         nth (Z.to_nat (APixOffset (blankAlpha (mkRect 0 0 1 1)) x y))
             (APix a') x00
         = if passes thresholds16 (ImgRGBA demoSrc) (x, y) then xff
           else nth (Z.to_nat (APixOffset (blankAlpha (mkRect 0 0 1 1)) x y))
                    (APix (blankAlpha (mkRect 0 0 1 1))) x00.
Proof.
  apply (skinMaskColorGeneric_alpha_at thresholds16 (ImgRGBA demoSrc)
           (blankAlpha (mkRect 0 0 1 1))); by_eval.
Defined.

(** * The buffer walk by coordinates, and the empty mask *)

(** X15. [SkinMask] on a well-formed packed RGBA source and alpha mask of
    the same bounds, both without row padding, in coordinates: the mask byte
    of every point of the bounds becomes 255 if the red and green bytes of
    the source pixel at that point pass the [uint8] test, and is left as it
    was otherwise. *)
Theorem SkinMask_RGBA_at (th : thresholds) (p : RGBA) (a : Alpha) :
  wfRGBA p -> wfAlpha a ->
  Stride p = 4 * Dx (Rect p) -> AStride a = Dx (Rect p) ->
  ARect a = Rect p ->
  exists a' cover,
    SkinMask th (ImgRGBA p) (Some (MaskAlpha a)) = Done (MaskAlpha a', cover)
    /\ forall x y,
         PtIn x y (Rect p) = true ->
         nth (Z.to_nat (APixOffset a x y)) (APix a') x00
         = if skin8 (nth (Z.to_nat (PixOffset p x y)) (Pix p) x00)
                    (nth (Z.to_nat (PixOffset p x y + 1)) (Pix p) x00)
           then xff
           else nth (Z.to_nat (APixOffset a x y)) (APix a) x00.
Proof.
  intros Hwf Hwfa Hstride Hastride Hrect.
  destruct (skinMaskColorRGBA_walk p a Hwf Hwfa (eq_sym Hrect))
    as (mpix & Hrun & _ & Hnth).
  unfold SkinMask, skinMaskColor. cbn [bind Bounds Mask_Bounds].
  rewrite Hrect, rect_eqb_refl, Hrun. cbn [bind fst snd].
  eexists. eexists. split; [reflexivity|].
  intros x y Hin. cbn [APix]. rewrite Hnth.
  unfold PtIn in Hin. rewrite !andb_true_iff in Hin.
  destruct Hin as [[[E1 E2] E3] E4].
  apply Z.leb_le in E1, E3. apply Z.ltb_lt in E2, E4.
  destruct Hwf as (Hx & Hy & _).
  set (k := (y - MinY (Rect p)) * Dx (Rect p) + (x - MinX (Rect p))).
  assert (Hk : 0 <= k < Dx (Rect p) * Dy (Rect p))
    by (unfold k, Dx, Dy in *; nia).
  assert (Hoff : APixOffset a x y = k)
    by (unfold APixOffset, k; rewrite Hastride, Hrect; lia).
  assert (Hpoff : PixOffset p x y = 4 * k)
    by (unfold PixOffset, k; rewrite Hstride; lia).
  rewrite Hoff, Hpoff.
  replace (Z.to_nat k <? Z.to_nat (Dx (Rect p) * Dy (Rect p)))%nat with true
    by (symmetry; apply Nat.ltb_lt; lia).
  cbn [andb]. unfold skinAt, redAt, greenAt.
  replace (Z.to_nat (4 * k)) with (4 * Z.to_nat k)%nat by lia.
  replace (Z.to_nat (4 * k + 1)) with (4 * Z.to_nat k + 1)%nat by lia.
  reflexivity.
Qed.

Lemma SkinMask_RGBA_at_witness :
  exists a' cover,
    SkinMask thresholds16 (ImgRGBA demoSrc) (Some (MaskAlpha demoMask))
    = Done (MaskAlpha a', cover)
    /\ forall x y,
         PtIn x y (Rect demoSrc) = true ->
         nth (Z.to_nat (APixOffset demoMask x y)) (APix a') x00
         = if skin8 (nth (Z.to_nat (PixOffset demoSrc x y)) (Pix demoSrc) x00)
                    (nth (Z.to_nat (PixOffset demoSrc x y + 1))
                         (Pix demoSrc) x00)
           then xff
           else nth (Z.to_nat (APixOffset demoMask x y)) (APix demoMask) x00.
Proof.
  apply (SkinMask_RGBA_at thresholds16 demoSrc demoMask);
    [by_eval|by_eval|reflexivity|reflexivity|reflexivity].
Defined.

Lemma rangeIncl_single (lo hi : Z) : hi = lo -> rangeIncl lo hi = [lo].
Proof.
  intros ->. unfold rangeIncl.
  replace (lo - lo + 1) with 1 by lia.
  change (Z.to_nat 1) with 1%nat. cbn [seq map].
  change (Z.of_nat 0) with 0. rewrite Z.add_0_r. reflexivity.
Qed.

(** X16. The generic loop of [skinMaskColor] with a mask whose bounds are
    the empty rectangle Min = Max still visits the point Min: it returns
    +Inf as coverage (1/0) if the source pixel there passes the test and NaN
    (0/0) otherwise. An [*image.Alpha] mask is returned unchanged; another
    mask is asked to set that point when the pixel passes. *)
Theorem generic_empty_mask (th : thresholds) (src : Image) (mask : Mask) :
  wfImage src ->
  MaxX (Mask_Bounds mask) = MinX (Mask_Bounds mask) ->
  MaxY (Mask_Bounds mask) = MinY (Mask_Bounds mask) ->
  let pt := (MinX (Mask_Bounds mask), MinY (Mask_Bounds mask)) in
  skinMaskColorGeneric th src mask
  = Done (if passes th src pt
          then (match mask with
                | MaskAlpha _ => mask
                | MaskOther b l => MaskOther b (pt :: l)
                end, FPosInf)
          else (mask, FNaN)).
Proof.
  intros Hsrc Hx Hy pt. unfold skinMaskColorGeneric.
  rewrite (rangeIncl_single _ _ Hx), (rangeIncl_single _ _ Hy).
  cbn [foldM]. unfold genericBody, passes, pt. cbn [fst snd].
  destruct (At_done src (MinX (Mask_Bounds mask)) (MinY (Mask_Bounds mask))
              Hsrc) as [c ->].
  cbn [bind]. unfold Dx, Dy. rewrite Hx, Hy, !Z.sub_diag.
  destruct (skin32 th (cR c) (cG c)); [|reflexivity].
  destruct mask as [a|b l]; cbn [Mask_SetOpaque Mask_Bounds] in *.
  - unfold Alpha_SetOpaque, PtIn. rewrite Hx.
    replace (MinX (ARect a) <? MinX (ARect a)) with false
      by (symmetry; apply Z.ltb_irrefl).
    rewrite andb_false_r. cbn [andb negb bind]. reflexivity.
  - reflexivity.
Qed.

Lemma generic_empty_mask_witness :
  skinMaskColorGeneric thresholds16 (ImgRGBA demoSrc)
                       (MaskOther (mkRect 1 0 1 0) [])
  = Done (if passes thresholds16 (ImgRGBA demoSrc) (1, 0)
          then (MaskOther (mkRect 1 0 1 0) [(1, 0)], FPosInf)
          else (MaskOther (mkRect 1 0 1 0) [], FNaN)).
Proof.
  apply (generic_empty_mask thresholds16 (ImgRGBA demoSrc)
           (MaskOther (mkRect 1 0 1 0) []));
    [by_eval|reflexivity|reflexivity].
Defined.

(** * The score as a count of levels *)

Lemma countAbove_filter (C : list Z) :
  countAbove C
  = Z.of_nat (length (filter (fun i => threshold <? nth i C 0)
                             (seq 0 (length C)))).
Proof.
  induction C as [|v C IH] using rev_ind; [reflexivity|].
  rewrite countAbove_app, length_app. cbn [length].
  rewrite Nat.add_1_r, seq_S, filter_app, length_app. cbn [Nat.add filter].
  rewrite nth_middle.
  rewrite (filter_ext_in (fun i => threshold <? nth i (C ++ [v]) 0)
                         (fun i => threshold <? nth i C 0)).
  - rewrite IH, countAbove_cons. change (countAbove []) with 0.
    destruct (threshold <? v); cbn [length]; lia.
  - intros i Hi. apply in_seq in Hi. rewrite app_nth1 by lia. reflexivity.
Qed.

Lemma filter_none {A : Type} (f : A -> bool) (l : list A) :
  (forall x, In x l -> f x = false) -> filter f l = [].
Proof.
  intros H. induction l as [|x l IH]; [reflexivity|].
  cbn [filter]. rewrite (H x) by (left; reflexivity).
  apply IH. intros y Hy. apply H. right. exact Hy.
Qed.

(** The buckets above the threshold, when those from [n] on are empty. *)
Lemma countAbove_levels (C : list Z) (n m : nat) (f : nat -> Z) :
  length C = (n + m)%nat ->
  (forall i, nth i C 0 = f i) ->
  (forall i, (n <= i)%nat -> f i = 0) ->
  countAbove C
  = Z.of_nat (length (filter (fun i => 64 <? f i) (seq 0 n))).
Proof.
  intros Hlen Hnth Hzero.
  rewrite countAbove_filter, Hlen, seq_app, filter_app, length_app.
  rewrite (filter_none _ (seq (0 + n) m)).
  - cbn [length]. rewrite Nat.add_0_r. do 2 f_equal.
    apply filter_ext. intros i. rewrite Hnth. reflexivity.
  - intros i Hi. apply in_seq in Hi.
    rewrite Hnth, Hzero by lia. reflexivity.
Qed.

(** X8. [Content] on a well-formed packed RGBA image over its own bounds.
    Bucket [i] of the 256 counters of [contentRGBA] holds, modulo 256, the
    number of pixels of [Pix] (in buffer order, up to the pixel count) whose
    [uint8] channel sum divided by 3 is [i]; the score is the number of
    levels [i] from 0 to 85 whose counter exceeds 64. *)
Theorem Content_RGBA_levels (p : RGBA) :
  wfRGBA p ->
  exists C,
    histRGBA p = Done C
    /\ length C = 256%nat
    /\ (forall i,
          nth i C 0
          = countBucket (Pix p) (Z.to_nat (Dx (Rect p) * Dy (Rect p)))
                        (Z.of_nat i) mod 256)
    /\ Content (ImgRGBA p) (Rect p)
       = Done (Z.of_nat
                 (length
                    (filter
                       (fun i =>
                          64 <? countBucket (Pix p)
                                  (Z.to_nat (Dx (Rect p) * Dy (Rect p)))
                                  (Z.of_nat i) mod 256)
                       (seq 0 86)))).
Proof.
  intros Hwf. destruct (histRGBA_walk p Hwf) as (C & Hrun & Hlen & Hnth).
  exists C. split; [exact Hrun|]. split; [exact Hlen|]. split; [exact Hnth|].
  unfold Content. cbn [Bounds]. rewrite rect_eqb_refl.
  unfold contentRGBA. rewrite Hrun. cbn [bind]. f_equal.
  rewrite score_min.
  rewrite (countAbove_levels C 86 170
             (fun i => countBucket (Pix p)
                         (Z.to_nat (Dx (Rect p) * Dy (Rect p)))
                         (Z.of_nat i) mod 256)).
  - pose proof (filter_length_le
                  (fun i => 64 <? countBucket (Pix p)
                                    (Z.to_nat (Dx (Rect p) * Dy (Rect p)))
                                    (Z.of_nat i) mod 256) (seq 0 86)) as Hle.
    rewrite length_seq in Hle. lia.
  - exact Hlen.
  - exact Hnth.
  - intros i Hi. rewrite countBucket_high by lia. reflexivity.
Qed.

Lemma Content_RGBA_levels_witness :
  exists C,
    histRGBA demoSrc = Done C
    /\ length C = 256%nat
    /\ (forall i,
          nth i C 0
          = countBucket (Pix demoSrc)
                        (Z.to_nat (Dx (Rect demoSrc) * Dy (Rect demoSrc)))
                        (Z.of_nat i) mod 256)
    /\ Content (ImgRGBA demoSrc) (Rect demoSrc)
       = Done (Z.of_nat
                 (length
                    (filter
                       (fun i =>
                          64 <? countBucket (Pix demoSrc)
                                  (Z.to_nat (Dx (Rect demoSrc)
                                             * Dy (Rect demoSrc)))
                                  (Z.of_nat i) mod 256)
                       (seq 0 86)))).
Proof. apply (Content_RGBA_levels demoSrc). by_eval. Defined.

(** X10. The generic loop of [Content] on a well-formed source. Bucket [i]
    of its 768 counters holds, modulo 256, the number of points of the
    inclusive rectangle Min..Max of [r] whose source pixel falls into bucket
    [i], the buckets from 256 on staying 0; the score is the number of
    levels [i] from 0 to 255 whose counter exceeds 64, capped at 255. *)
Theorem Content_generic_levels (src : Image) (r : Rectangle) :
  wfImage src ->
  exists C,
    histGeneric src r = Done C
    /\ length C = 768%nat
    /\ (forall i, nth i C 0 = countPoints src (walk r) (Z.of_nat i) mod 256)
    /\ contentGeneric src r
       = Done (Z.min
                 (Z.of_nat
                    (length
                       (filter
                          (fun i => 64 <? countPoints src (walk r)
                                            (Z.of_nat i) mod 256)
                          (seq 0 256))))
                 255).
Proof.
  intros Hsrc.
  destruct (histGeneric_walk src r Hsrc) as (C & Hrun & Hlen & Hnth & Hhigh).
  exists C. split; [exact Hrun|]. split; [exact Hlen|]. split; [exact Hnth|].
  unfold contentGeneric. rewrite Hrun. cbn [bind]. f_equal.
  rewrite score_min. f_equal.
  apply (countAbove_levels C 256 512
           (fun i => countPoints src (walk r) (Z.of_nat i) mod 256)).
  - exact Hlen.
  - exact Hnth.
  - intros i Hi. rewrite <- Hnth. apply Hhigh. exact Hi.
Qed.

Lemma Content_generic_levels_witness :
  exists C,
    histGeneric (ImgRGBA demoSrc) (mkRect 0 0 1 1) = Done C
    /\ length C = 768%nat
    /\ (forall i, nth i C 0
                  = countPoints (ImgRGBA demoSrc) (walk (mkRect 0 0 1 1))
                                (Z.of_nat i) mod 256)
    /\ contentGeneric (ImgRGBA demoSrc) (mkRect 0 0 1 1)
       = Done (Z.min
                 (Z.of_nat
                    (length
                       (filter
                          (fun i => 64 <? countPoints (ImgRGBA demoSrc)
                                            (walk (mkRect 0 0 1 1))
                                            (Z.of_nat i) mod 256)
                          (seq 0 256))))
                 255).
Proof.
  apply (Content_generic_levels (ImgRGBA demoSrc) (mkRect 0 0 1 1)). by_eval.
Defined.
